(** * 1-2 oblivious transfer over a hand-made RSA

    A shallow embedding of [rsa.py] and [oblivious.py].  Python integers are
    [Z]; the global random generator is an explicit tape of raw draws that is
    threaded through every function that calls [random]; exceptions are an
    error result.  Printing under [disclose] has no effect on any value and
    is left out. *)

From Stdlib Require Import ZArith Znumtheory Zcong Lia String List Bool.
From Stdlib Require Import Zmod.ZmodInv.
Import ListNotations.
Local Open Scope Z_scope.

(** ** The Python runtime the two files rely on *)

Module Py.

(** Exception classes of the runtime that the two files can raise.  The
    files declare no exception class of their own and contain no [raise]
    statement; the only explicit check is one [assert]. *)
Inductive exn : Type :=
| AttributeError (attr : string)
| AssertionError (msg : string)
| ValueError (msg : string)
| IndexError
| ZeroDivisionError
| RecursionError
| NotAnInteger.
(* [NotAnInteger] is not a Python exception: it marks [2 ** bits] or
   [k ** e] with a negative exponent, where Python leaves the integers. *)

(** Result of running a piece of code: a value, an exception, or
    [Starved] when the tape of random draws ran out before the code
    finished (the run asks for more randomness than was supplied). *)
Inductive outcome (A : Type) : Type :=
| Ret (a : A)
| Raise (e : exn)
| Starved.
Arguments Ret {A} a.
Arguments Raise {A} e.
Arguments Starved {A}.

Definition obind {A B} (c : outcome A) (k : A -> outcome B) : outcome B :=
  match c with
  | Ret a => k a
  | Raise e => Raise e
  | Starved => Starved
  end.

(** Code that draws random numbers: a state monad over the tape. *)
Definition tape := list Z.
Definition M (A : Type) : Type := tape -> outcome (A * tape).

Definition ret {A} (a : A) : M A := fun t => Ret (a, t).
Definition raise {A} (e : exn) : M A := fun _ => Raise e.
Definition bind {A B} (c : M A) (k : A -> M B) : M B :=
  fun t => match c t with
           | Ret (a, t') => k a t'
           | Raise e => Raise e
           | Starved => Starved
           end.
Definition lift {A} (c : outcome A) : M A :=
  fun t => match c with
           | Ret a => Ret (a, t)
           | Raise e => Raise e
           | Starved => Starved
           end.

(** [random.randint(lo, hi)]: a value of the closed interval [lo .. hi];
    [ValueError] on an empty interval, before anything is drawn. *)
Definition randint (lo hi : Z) : M Z :=
  fun t =>
    if hi <? lo then Raise (ValueError "empty range for randrange()")
    else match t with
         | [] => Starved
         | w :: t' => Ret (lo + w mod (hi - lo + 1), t')
         end.

(** [random.choice(seq)] *)
Definition choice (seq : list Z) : M Z :=
  fun t =>
    match seq with
    | [] => Raise IndexError
    | x :: _ =>
        match t with
        | [] => Starved
        | w :: t' =>
            Ret (nth (Z.to_nat (w mod Z.of_nat (length seq))) seq x, t')
        end
    end.

(** [a % n] and [a // n] *)
Definition mod_ (a n : Z) : outcome Z :=
  if n =? 0 then Raise ZeroDivisionError else Ret (a mod n).
Definition floordiv (a n : Z) : outcome Z :=
  if n =? 0 then Raise ZeroDivisionError else Ret (a / n).

(** [b ** e] on integers *)
Definition int_pow (b e : Z) : outcome Z :=
  if e <? 0 then
    (if b =? 0 then Raise ZeroDivisionError else Raise NotAnInteger)
  else Ret (b ^ e).

(** Square-and-multiply, reducing at every step, as the three-argument
    [pow] does. *)
Fixpoint powmod_pos (a : Z) (e : positive) (m : Z) : Z :=
  match e with
  | xH => a mod m
  | xO e' => let s := powmod_pos a e' m in (s * s) mod m
  | xI e' => let s := powmod_pos a e' m in ((s * s) mod m * a) mod m
  end.

Definition powmod (a e m : Z) : Z :=
  match e with
  | Z0 => 1 mod m
  | Zpos e' => powmod_pos a e' m
  | Zneg _ => 0
  end.

(** [pow(base, exp, modulus)]; a negative exponent first inverts the base
    modulo [abs(modulus)]. *)
Definition pow3 (base exp modulus : Z) : outcome Z :=
  if modulus =? 0 then Raise (ValueError "pow() 3rd argument cannot be 0")
  else if exp <? 0 then
    if Z.gcd base modulus =? 1
    then Ret (powmod (Z.invmod base (Z.abs modulus)) (- exp) modulus)
    else Raise (ValueError "base is not invertible for the given modulus")
  else Ret (powmod base exp modulus).

(** [hash(x)] of an integer on a 64-bit build *)
Definition hash_modulus : Z := 2 ^ 61 - 1.
Definition hash (x : Z) : Z :=
  let h := Z.sgn x * (Z.abs x mod hash_modulus) in
  if h =? -1 then -2 else h.

(** [x.bit_length()] *)
Definition bit_length (x : Z) : Z :=
  if x =? 0 then 0 else Z.log2 (Z.abs x) + 1.

(** [t[i]] on a pair *)
Definition getitem (t : Z * Z) (i : Z) : outcome Z :=
  if (i =? 0) || (i =? -2) then Ret (fst t)
  else if (i =? 1) || (i =? -1) then Ret (snd t)
  else Raise IndexError.

(** Reading an attribute that may not have been assigned yet *)
Definition getattr (name : string) (slot : option Z) : outcome Z :=
  match slot with
  | Some x => Ret x
  | None => Raise (AttributeError name)
  end.

End Py.
Import Py.

Declare Scope py_scope.
Delimit Scope py_scope with py.
Notation "x <- c ;; k" := (bind c (fun x => k))
  (at level 61, c at next level, right associativity) : py_scope.
Notation "' p <- c ;; k" := (bind c (fun x => let 'p := x in k))
  (at level 61, p pattern, c at next level, right associativity) : py_scope.
Notation "x <~ c ;; k" := (obind c (fun x => k))
  (at level 61, c at next level, right associativity) : py_scope.
Notation "' p <~ c ;; k" := (obind c (fun x => let 'p := x in k))
  (at level 61, p pattern, c at next level, right associativity) : py_scope.
Local Open Scope py_scope.

(** ** rsa.py *)

Module rsa.

(** [get_dr], the inner function of [miller_rabin].  The recursion halves
    [d], so [S (log2 |d|)] calls are enough for every [d <> 0]; at
    [d = 0] it never ends and the interpreter gives up. *)
Fixpoint get_dr (fuel : nat) (d r : Z) : outcome (Z * Z) :=
  match fuel with
  | O => Raise RecursionError
  | S fuel' =>
      if negb (d mod 2 =? 0) then Ret (d, r)
      else get_dr fuel' (d / 2) (r + 1)
  end.

(** The [for _ in range(r)] loop of [test] *)
Fixpoint test_loop (i : nat) (n x : Z) : outcome bool :=
  match i with
  | O => Ret false
  | S i' =>
      if (x =? 1) || (x =? n - 1) then Ret true
      else x' <~ mod_ (x * x) n ;; test_loop i' n x'
  end.

(** [test], one witness round *)
Definition test (n d r : Z) : M bool :=
  a <- randint 2 (n - 2) ;;
  x <- lift (pow3 a d n) ;;
  lift (test_loop (Z.to_nat r) n x).

(** [all(test(n, d, r) for _ in range(k))]: stops at the first failure *)
Fixpoint all_tests (k : nat) (n d r : Z) : M bool :=
  match k with
  | O => ret true
  | S k' =>
      ok <- test n d r ;;
      if ok : bool then all_tests k' n d r else ret false
  end.

Definition default_tol : Z := 128.

Definition miller_rabin (n : Z) (tol : Z) : M bool :=
  if (n =? 2) || (n =? 3) then ret true
  else if (n =? 1) || (n mod 2 =? 0) then ret false
  else
    ' (d, r) <- lift (get_dr (S (Z.to_nat (Z.log2 (Z.abs (n - 1))))) (n - 1) 0) ;;
    let k := tol / 2 + 1 in
    all_tests (Z.to_nat k) n d r.

(** The [while not miller_rabin(p)] loop of [find_prime].  Every turn
    that does not return draws a fresh candidate, so a loop entered with
    more fuel than the tape has entries left can only stop by returning
    or by starving. *)
Fixpoint find_prime_loop (fuel : nat) (lo hi p : Z) : M Z :=
  match fuel with
  | O => fun _ => Starved
  | S fuel' =>
      ok <- miller_rabin p default_tol ;;
      if ok : bool then ret p
      else p' <- randint lo hi ;; find_prime_loop fuel' lo hi p'
  end.

Definition find_prime (bits : Z) : M Z :=
  lo <- lift (int_pow 2 bits) ;;
  hi <- lift (int_pow 2 (bits + 1)) ;;
  p <- randint lo hi ;;
  fun t => find_prime_loop (S (length t)) lo hi p t.

(** The successive values of the loop variable [p] of [find_prime]: the
    candidates handed to [miller_rabin], in the order they are drawn. *)
Fixpoint candidates_loop (fuel : nat) (lo hi p : Z) (t : tape) : list Z :=
  match fuel with
  | O => []
  | S fuel' =>
      p :: match miller_rabin p default_tol t with
           | Ret (false, t1) =>
               match randint lo hi t1 with
               | Ret (p', t2) => candidates_loop fuel' lo hi p' t2
               | _ => []
               end
           | _ => []
           end
  end.

Definition candidates (bits : Z) (t : tape) : list Z :=
  match int_pow 2 bits, int_pow 2 (bits + 1) with
  | Ret lo, Ret hi =>
      match randint lo hi t with
      | Ret (p, t1) => candidates_loop (S (length t1)) lo hi p t1
      | _ => []
      end
  | _, _ => []
  end.

Definition PubKeys : Type := Z * Z.

Record RSA : Type := mkRSA {
  psize : Z;
  p : Z;
  q : Z;
  n : Z;
  keysize : Z;
  lam_n : Z;
  e : Z;
  d : Z
}.

Definition _carmichael (p q : Z) : outcome Z :=
  let a := p - 1 in
  let b := q - 1 in
  floordiv (Z.abs (a * b)) (Z.gcd a b).

(** [RSA.__init__] *)
Definition init (psize : Z) : M RSA :=
  p <- find_prime psize ;;
  q <- find_prime psize ;;
  let n := p * q in
  let keysize := bit_length n in
  lam_n <- lift (_carmichael p q) ;;
  let e := 65537 in
  if negb (Z.gcd e lam_n =? 1) then raise (AssertionError "Must be co-prime!")
  else
    d <- lift (pow3 e (-1) lam_n) ;;
    ret (mkRSA psize p q n keysize lam_n e d).

Definition encrypt (self : RSA) (message : Z) (publickey : PubKeys) : outcome Z :=
  let '(n_pub, e_pub) := publickey in
  pow3 message e_pub n_pub.

Definition decrypt (self : RSA) (cypher : Z) : outcome Z :=
  pow3 cypher (d self) (n self).

Definition publickey (self : RSA) : PubKeys := (n self, e self).

Definition encrypt_and_sign (self : RSA) (message : Z) (publickey : PubKeys)
  : outcome (Z * Z) :=
  cypher <~ encrypt self message publickey ;;
  signature <~ pow3 (hash message) (d self) (n self) ;;
  Ret (cypher, signature).

Definition decrypt_and_verify (self : RSA) (signed_message : Z * Z)
  (publickey : PubKeys) : outcome (bool * Z) :=
  let '(cypher, signature) := signed_message in
  plain <~ decrypt self cypher ;;
  let '(n_pub, e_pub) := publickey in
  s <~ pow3 signature e_pub n_pub ;;
  let verify := hash plain =? hash s in
  Ret (verify, plain).

(** The [__main__] block of rsa.py, for any key size and plaintext in
    place of the literals [128] and [12345678]: Alice signs and encrypts
    for Bob, Bob decrypts and verifies with Alice's public key. *)
Definition main (psize plaintext : Z) : M (bool * Z) :=
  alice <- init psize ;;
  bob <- init psize ;;
  signed_cyphertext <- lift (encrypt_and_sign alice plaintext (publickey bob)) ;;
  verified_plaintext <-
    lift (decrypt_and_verify bob signed_cyphertext (publickey alice)) ;;
  ret verified_plaintext.

End rsa.

(** ** oblivious.py *)

Module oblivious.

Module Alice.

(** The attributes of an [Alice] object.  [v], [k0] and [k1] do not
    exist until [receive_encrypted_choice] assigns them. *)
Record state : Type := mk {
  r : rsa.RSA;
  disclose : bool;
  m0 : Z;
  m1 : Z;
  x0 : Z;
  x1 : Z;
  v : option Z;
  k0 : option Z;
  k1 : option Z
}.

Definition set_v (self : state) (c : Z) : state :=
  mk (r self) (disclose self) (m0 self) (m1 self) (x0 self) (x1 self)
     (Some c) (k0 self) (k1 self).
Definition set_k0 (self : state) (c : Z) : state :=
  mk (r self) (disclose self) (m0 self) (m1 self) (x0 self) (x1 self)
     (v self) (Some c) (k1 self).
Definition set_k1 (self : state) (c : Z) : state :=
  mk (r self) (disclose self) (m0 self) (m1 self) (x0 self) (x1 self)
     (v self) (k0 self) (Some c).

(** [Alice.__init__] *)
Definition init (bits : Z) (disclose : bool) : M state :=
  r <- rsa.init bits ;;
  let m0 := 1234 in
  let m1 := 5678 in
  x0 <- randint 1000 10000 ;;
  x1 <- randint 1000 10000 ;;
  ret (mk r disclose m0 m1 x0 x1 None None None).

Definition send_publickey (self : state) : rsa.PubKeys :=
  rsa.publickey (r self).

Definition send_random_messages (self : state) : Z * Z :=
  (x0 self, x1 self).

Definition receive_encrypted_choice (self : state) (choice : Z)
  : outcome state :=
  let self := set_v self choice in
  v0 <~ getattr "v" (v self) ;;
  k0 <~ pow3 (v0 - x0 self) (rsa.d (r self)) (rsa.n (r self)) ;;
  let self := set_k0 self k0 in
  v1 <~ getattr "v" (v self) ;;
  k1 <~ pow3 (v1 - x1 self) (rsa.d (r self)) (rsa.n (r self)) ;;
  Ret (set_k1 self k1).

Definition send_encrypted_messages (self : state) : outcome (Z * Z) :=
  k0 <~ getattr "k0" (k0 self) ;;
  m0_ <~ mod_ (m0 self + k0) (rsa.n (r self)) ;;
  k1 <~ getattr "k1" (k1 self) ;;
  m1_ <~ mod_ (m1 self + k1) (rsa.n (r self)) ;;
  Ret (m0_, m1_).

End Alice.

Module Bob.

(** The attributes of a [Bob] object; only [bits] and [disclose] exist
    after [__init__]. *)
Record state : Type := mk {
  bits : Z;
  disclose : bool;
  n_pub : option Z;
  e_pub : option Z;
  xs : option (Z * Z);
  b : option Z;
  k : option Z;
  message : option Z
}.

Definition init (bits : Z) (disclose : bool) : state :=
  mk bits disclose None None None None None None.

Definition receive_publickey (self : state) (pkey : rsa.PubKeys) : state :=
  let '(n, e) := pkey in
  mk (bits self) (disclose self) (Some n) (Some e) (xs self) (b self)
     (k self) (message self).

Definition receive_random_messages (self : state) (messages : Z * Z)
  : state :=
  mk (bits self) (disclose self) (n_pub self) (e_pub self) (Some messages)
     (b self) (k self) (message self).

Definition choose_parameters (self : state) : M state :=
  b <- choice [0; 1] ;;
  hi <- lift (int_pow 2 (bits self)) ;;
  k <- randint 0 hi ;;
  ret (mk (bits self) (disclose self) (n_pub self) (e_pub self) (xs self)
          (Some b) (Some k) (message self)).

Definition getxs (self : state) : outcome (Z * Z) :=
  match xs self with
  | Some p => Ret p
  | None => Raise (AttributeError "xs")
  end.

Definition send_encrypted_choice (self : state) : outcome Z :=
  xs <~ getxs self ;;
  b <~ getattr "b" (b self) ;;
  x_b <~ getitem xs b ;;
  k <~ getattr "k" (k self) ;;
  e_pub <~ getattr "e_pub" (e_pub self) ;;
  ke <~ int_pow k e_pub ;;
  n_pub <~ getattr "n_pub" (n_pub self) ;;
  mod_ (x_b + ke) n_pub.

Definition decrypt_choice (self : state) (messages : Z * Z)
  : outcome state :=
  b <~ getattr "b" (b self) ;;
  mb <~ getitem messages b ;;
  k <~ getattr "k" (k self) ;;
  n_pub <~ getattr "n_pub" (n_pub self) ;;
  message <~ mod_ (mb - k) n_pub ;;
  Ret (mk (bits self) (disclose self) (Bob.n_pub self) (e_pub self)
          (xs self) (Bob.b self) (Bob.k self) (Some message)).

End Bob.

(** The exchange of the [__main__] block, for any key size and
    [disclose] flag instead of the literal [128] and [True]. *)
Definition exchange (bits : Z) (disclose : bool)
  : M (Alice.state * Bob.state) :=
  alice <- Alice.init bits disclose ;;
  let bob := Bob.init bits disclose in
  let bob := Bob.receive_publickey bob (Alice.send_publickey alice) in
  let bob := Bob.receive_random_messages bob (Alice.send_random_messages alice) in
  bob <- Bob.choose_parameters bob ;;
  c <- lift (Bob.send_encrypted_choice bob) ;;
  alice <- lift (Alice.receive_encrypted_choice alice c) ;;
  ms <- lift (Alice.send_encrypted_messages alice) ;;
  bob <- lift (Bob.decrypt_choice bob ms) ;;
  ret (alice, bob).

End oblivious.
Import oblivious.

(** The message Alice holds in slot [b]. *)
Definition chosen_message (alice : Alice.state) (b : Z) : Z :=
  if b =? 0 then Alice.m0 alice else Alice.m1 alice.

(** ** Tapes used in the examples *)

(** [zeros 65] makes every witness of one [miller_rabin] call the base 2. *)
Definition zeros (k : nat) : tape := repeat 0 k.

(** Key generation that finds [p = 5] and [q = 7] at [bits = 2]. *)
Definition tape_5_7 : tape := [1] ++ zeros 65 ++ [3] ++ zeros 65.

(** Key generation that finds [p = 131] and [q = 137] at [bits = 7]. *)
Definition tape_131_137 : tape := [3] ++ zeros 65 ++ [9] ++ zeros 65.

(** Key generation that finds [p = q = 917519 = 14 * 65537 + 1] at
    [bits = 19]. *)
Definition tape_917519 : tape :=
  [393231] ++ zeros 65 ++ [393231] ++ zeros 65.

(** Trial division, to certify the small primes of the examples. *)
Definition trial_division (p : Z) : bool :=
  (1 <? p) &&
  forallb (fun i => negb (p mod Z.of_nat i =? 0)) (seq 2 (Z.to_nat p - 2)).


(** Trial division up to the square root, with a counter in [Z], for
    larger numbers such as the public exponent. *)
Fixpoint trial_from (fuel : nat) (i p : Z) : bool :=
  match fuel with
  | O => p <? i * i
  | S fuel' =>
      (p <? i * i) || (negb (p mod i =? 0) && trial_from fuel' (i + 1) p)
  end.

(** * Facts about the runtime model *)

Section Runtime.

Lemma powmod_pos_spec a e m : powmod_pos a e m = a ^ Z.pos e mod m.
Proof.
  induction e as [e IH | e IH |]; simpl powmod_pos.
  - rewrite IH, Pos2Z.inj_xI.
    replace (2 * Z.pos e + 1) with (Z.pos e + Z.pos e + 1) by lia.
    rewrite !Z.pow_add_r, Z.pow_1_r by lia.
    rewrite <- Zmult_mod, Zmult_mod_idemp_l. reflexivity.
  - rewrite IH, Pos2Z.inj_xO.
    replace (2 * Z.pos e) with (Z.pos e + Z.pos e) by lia.
    rewrite Z.pow_add_r by lia. now rewrite <- Zmult_mod.
  - now rewrite Z.pow_1_r.
Qed.

Lemma powmod_spec a e m : 0 <= e -> powmod a e m = a ^ e mod m.
Proof.
  destruct e as [| e | e]; intros He; simpl powmod.
  - reflexivity.
  - apply powmod_pos_spec.
  - lia.
Qed.

Lemma pow3_nonneg a e m :
  m <> 0 -> 0 <= e -> pow3 a e m = Ret (a ^ e mod m).
Proof.
  intros Hm He. unfold pow3.
  destruct (Z.eqb_spec m 0); [contradiction |].
  destruct (Z.ltb_spec e 0); [lia |].
  now rewrite powmod_spec.
Qed.

Lemma pow3_inverse a m :
  0 < m -> Z.gcd a m = 1 -> pow3 a (-1) m = Ret (Z.invmod a m).
Proof.
  intros Hm Hg. unfold pow3.
  destruct (Z.eqb_spec m 0); [lia |].
  change (-1 <? 0) with true. cbv iota.
  rewrite Hg. change (1 =? 1) with true. cbv iota.
  change (- -1) with 1.
  rewrite powmod_spec, Z.pow_1_r, Z.abs_eq by lia.
  now rewrite Z.mod_invmod.
Qed.

Lemma pow3_ret_range a e m x : 0 < m -> pow3 a e m = Ret x -> 0 <= x < m.
Proof.
  intros Hm. unfold pow3.
  destruct (Z.eqb_spec m 0); [lia |].
  assert (forall b y, 0 <= powmod b y m < m) as Hr.
  { intros b [| y | y]; simpl; [| rewrite powmod_pos_spec |];
      try apply Z.mod_pos_bound; lia. }
  destruct (e <? 0).
  - destruct (Z.gcd a m =? 1); [| discriminate].
    intros [= <-]. apply Hr.
  - intros [= <-]. apply Hr.
Qed.

Lemma randint_ret lo hi t x t' :
  randint lo hi t = Ret (x, t') ->
  lo <= x <= hi /\ exists w, t = w :: t' /\ x = lo + w mod (hi - lo + 1).
Proof.
  unfold randint. destruct (Z.ltb_spec hi lo); [discriminate |].
  destruct t as [| w t0]; [discriminate |].
  intros [= <- <-]. split.
  - pose proof (Z.mod_pos_bound w (hi - lo + 1)). lia.
  - now exists w.
Qed.

Lemma randint_cons lo hi w t :
  lo <= hi -> randint lo hi (w :: t) = Ret (lo + w mod (hi - lo + 1), t).
Proof.
  intros H. unfold randint. destruct (Z.ltb_spec hi lo); [lia | reflexivity].
Qed.

Lemma int_pow_ret b e x : int_pow b e = Ret x -> 0 <= e /\ x = b ^ e.
Proof.
  unfold int_pow. destruct (Z.ltb_spec e 0).
  - destruct (b =? 0); discriminate.
  - intros [= <-]. now split.
Qed.

Lemma hash_small x : 0 <= x < hash_modulus -> hash x = x.
Proof.
  intros Hx. unfold hash.
  rewrite Z.abs_eq, Z.mod_small by lia.
  destruct (Z.eq_dec x 0) as [-> | Hx0]; [reflexivity |].
  rewrite Z.sgn_pos by lia.
  destruct (Z.eqb_spec (1 * x) (-1)); lia.
Qed.

Lemma hash_nonneg x : 0 <= x -> hash x = x mod hash_modulus.
Proof.
  intros Hx. unfold hash. rewrite Z.abs_eq by lia.
  assert (0 < hash_modulus) as Hm by reflexivity.
  pose proof (Z.mod_pos_bound x hash_modulus Hm) as Hb.
  destruct (Z.eq_dec x 0) as [-> | Hx0]; [reflexivity |].
  rewrite Z.sgn_pos by lia.
  destruct (Z.eqb_spec (1 * (x mod hash_modulus)) (-1)); lia.
Qed.

(** Inversion of a successful run through [bind], [lift] and [obind] *)
Lemma bind_ret {A B} (c : M A) (k : A -> M B) t b t' :
  bind c k t = Ret (b, t') ->
  exists a t1, c t = Ret (a, t1) /\ k a t1 = Ret (b, t').
Proof.
  unfold bind. destruct (c t) as [[a t1] | |]; try discriminate.
  intros H. now exists a, t1.
Qed.

Lemma lift_ret {A} (c : outcome A) t a t' :
  lift c t = Ret (a, t') -> c = Ret a /\ t' = t.
Proof.
  unfold lift. destruct c; try discriminate. now intros [= <- <-].
Qed.

Lemma obind_ret {A B} (c : outcome A) (k : A -> outcome B) b :
  obind c k = Ret b -> exists a, c = Ret a /\ k a = Ret b.
Proof.
  destruct c as [a | |]; try discriminate. intros H. now exists a.
Qed.

Lemma ret_ret {A} (a b : A) t t' : ret a t = Ret (b, t') -> a = b /\ t = t'.
Proof. unfold ret. now intros [= <- <-]. Qed.

Lemma mod_ret a n x : mod_ a n = Ret x -> n <> 0 /\ x = a mod n.
Proof.
  unfold mod_. destruct (Z.eqb_spec n 0); [discriminate |].
  now intros [= <-].
Qed.

End Runtime.

(** Break a hypothesis that says a monadic run returned into its steps. *)
Ltac run_inv H :=
  let a := fresh "a" in
  let t := fresh "t" in
  let H1 := fresh "Hrun" in
  let E := fresh "E" in
  lazymatch type of H with
  | bind _ _ _ = Ret _ =>
      apply bind_ret in H; destruct H as (a & t & H1 & H); cbv beta in H
  | lift _ _ = Ret _ =>
      apply lift_ret in H; destruct H as (H & E); subst
  | obind _ _ = Ret _ =>
      apply obind_ret in H; destruct H as (a & H1 & H); cbv beta in H
  | ret _ _ = Ret _ =>
      apply ret_ret in H; destruct H as (H & E); subst
  end.

(** * The arithmetic behind RSA *)

Section Arithmetic.

Lemma pow_mod_prime_cycle p k t :
  Z.prime p -> 0 <= t -> k ^ (1 + t * (p - 1)) mod p = k mod p.
Proof.
  intros Hp Ht. pose proof (Z.prime_ge_2 _ Hp) as Hp2.
  rewrite Z.pow_add_r, Z.pow_1_r by nia.
  destruct (Z.eq_dec (k mod p) 0) as [Hk | Hk].
  - rewrite Zmult_mod, Hk. now rewrite Z.mul_0_l, Z.mod_0_l by lia.
  - rewrite (Z.mul_comm t), Z.pow_mul_r by lia.
    rewrite Zmult_mod, <- (Z.mod_pow_l (k ^ (p - 1))), (Z.fermat_nz p k Hp Hk).
    rewrite Z.pow_1_l, (Z.mod_1_l p), Z.mul_1_r by lia.
    apply Z.mod_mod. lia.
Qed.

Lemma pow_mod_prime p k x :
  Z.prime p -> 0 < x -> (p - 1 | x - 1) -> k ^ x mod p = k mod p.
Proof.
  intros Hp Hx [t Ht]. pose proof (Z.prime_ge_2 _ Hp) as Hp2.
  replace x with (1 + t * (p - 1)) by lia.
  apply pow_mod_prime_cycle; [assumption | nia].
Qed.

Lemma distinct_primes_coprime p q :
  Z.prime p -> Z.prime q -> p <> q -> Z.gcd p q = 1.
Proof.
  intros Hp Hq Hne. apply Z.coprime_prime_l; [assumption |].
  intros Hd. pose proof (Z.prime_ge_2 _ Hp). pose proof (Z.prime_ge_2 _ Hq).
  apply (Z.divide_prime_r _ _ Hq) in Hd. lia.
Qed.

(** The RSA identity on a product of two distinct primes *)
Lemma rsa_identity p q x k :
  Z.prime p -> Z.prime q -> p <> q -> 0 < x ->
  (p - 1 | x - 1) -> (q - 1 | x - 1) ->
  k ^ x mod (p * q) = k mod (p * q).
Proof.
  intros Hp Hq Hne Hx Hdp Hdq.
  pose proof (Z.prime_ge_2 _ Hp) as Hp2. pose proof (Z.prime_ge_2 _ Hq) as Hq2.
  apply Z.cong_iff_0. apply Z.mod_divide; [nia |].
  assert (p | k ^ x - k) as Dp.
  { apply Z.mod_divide; [lia |]. apply Z.cong_iff_0.
    now apply pow_mod_prime. }
  assert (q | k ^ x - k) as Dq.
  { apply Z.mod_divide; [lia |]. apply Z.cong_iff_0.
    now apply pow_mod_prime. }
  destruct Dq as [c Hc]. rewrite Hc in Dp |- *.
  rewrite Z.mul_comm in Dp.
  apply Z.gauss in Dp; [| now apply distinct_primes_coprime].
  destruct Dp as [c' ->]. exists c'. ring.
Qed.

Lemma carmichael_lcm a b :
  Z.gcd a b <> 0 -> Z.abs (a * b) / Z.gcd a b = Z.lcm a b.
Proof.
  intros Hg. unfold Z.lcm.
  destruct (Z.gcd_divide_r a b) as [c Hc].
  pose proof (Z.gcd_nonneg a b) as Hn.
  rewrite Hc at 1 3. rewrite Z.div_mul by assumption.
  rewrite Z.mul_assoc, !Z.abs_mul, (Z.abs_eq (Z.gcd a b)) by assumption.
  now rewrite Z.div_mul.
Qed.

End Arithmetic.

(** * The primality test and the prime search *)

Section PrimeSearch.

(** A witness round that returns has drawn exactly one number. *)
Lemma test_draws n d r t b t' :
  rsa.test n d r t = Ret (b, t') -> exists w, t = w :: t'.
Proof.
  unfold rsa.test. intros H.
  run_inv H. run_inv H. run_inv Hrun0. run_inv H.
  apply randint_ret in Hrun as (_ & w & -> & _). now exists w.
Qed.

Lemma all_tests_tape k n d r t b t' :
  rsa.all_tests k n d r t = Ret (b, t') ->
  (length t' <= length t)%nat.
Proof.
  revert t. induction k as [| k IH]; intros t H; simpl in H.
  - run_inv H. lia.
  - run_inv H. apply test_draws in Hrun as (w & ->).
    destruct a.
    + apply IH in H. simpl. lia.
    + run_inv H. simpl. lia.
Qed.

Lemma miller_rabin_tape n tol t b t' :
  rsa.miller_rabin n tol t = Ret (b, t') -> (length t' <= length t)%nat.
Proof.
  unfold rsa.miller_rabin.
  destruct ((n =? 2) || (n =? 3)); [intros H; run_inv H; lia |].
  destruct ((n =? 1) || (n mod 2 =? 0)); [intros H; run_inv H; lia |].
  intros H. run_inv H. destruct a as [d r]. run_inv Hrun.
  now apply all_tests_tape in H.
Qed.

(** What [miller_rabin] accepts is 2 or an odd number other than 1. *)
Lemma miller_rabin_true n tol t t' :
  rsa.miller_rabin n tol t = Ret (true, t') ->
  n <> 1 /\ (n = 2 \/ n mod 2 <> 0).
Proof.
  unfold rsa.miller_rabin.
  destruct (Z.eqb_spec n 2) as [-> | H2]; [intros _; split; [lia | now left] |].
  destruct (Z.eqb_spec n 3) as [-> | H3];
    [intros _; split; [lia | right; discriminate] |].
  destruct (Z.eqb_spec n 1) as [-> | H1];
    [cbn [orb]; intros H; run_inv H; discriminate |].
  destruct (Z.eqb_spec (n mod 2) 0) as [He | Ho];
    [cbn [orb]; intros H; run_inv H; discriminate |].
  intros _. split; [assumption | now right].
Qed.

(** The loop returns only a candidate that [miller_rabin] accepted, and
    every candidate it handles comes from the closed interval. *)
Lemma find_prime_loop_ret fuel lo hi p t x t' :
  lo <= p <= hi ->
  rsa.find_prime_loop fuel lo hi p t = Ret (x, t') ->
  lo <= x <= hi /\
  exists t0, rsa.miller_rabin x rsa.default_tol t0 = Ret (true, t').
Proof.
  revert p t. induction fuel as [| fuel IH]; intros p t Hp H; simpl in H.
  - discriminate.
  - run_inv H. destruct a.
    + run_inv H. split; [assumption | now exists t].
    + run_inv H. apply randint_ret in Hrun0 as (Hr & _).
      eapply IH; eassumption.
Qed.

Lemma find_prime_ret bits t p t' :
  rsa.find_prime bits t = Ret (p, t') ->
  0 <= bits /\ 2 ^ bits <= p <= 2 ^ (bits + 1) /\
  exists t0, rsa.miller_rabin p rsa.default_tol t0 = Ret (true, t').
Proof.
  unfold rsa.find_prime. intros H.
  run_inv H. run_inv Hrun. run_inv H. run_inv Hrun0. run_inv H.
  apply int_pow_ret in Hrun as (Hb & ->).
  apply int_pow_ret in Hrun0 as (_ & ->).
  apply randint_ret in Hrun1 as (Hr & _).
  split; [assumption |].
  eapply find_prime_loop_ret; eassumption.
Qed.

(** What [find_prime] returns is at least 2. *)
Lemma find_prime_ge_2 bits t p t' :
  rsa.find_prime bits t = Ret (p, t') -> 2 <= p.
Proof.
  intros H. apply find_prime_ret in H as (Hb & Hr & t0 & Hm).
  apply miller_rabin_true in Hm as (H1 & _).
  assert (0 < 2 ^ bits) by (apply Z.pow_pos_nonneg; lia). lia.
Qed.

(** The fuel of the loop is never what stops it: once it exceeds the
    length of the tape, more fuel changes nothing. *)
Lemma find_prime_loop_fuel fuel1 fuel2 lo hi p t :
  (length t < fuel1)%nat -> (length t < fuel2)%nat ->
  rsa.find_prime_loop fuel1 lo hi p t = rsa.find_prime_loop fuel2 lo hi p t.
Proof.
  revert fuel2 p t. induction fuel1 as [| fuel1 IH]; intros fuel2 p t H1 H2.
  - lia.
  - destruct fuel2 as [| fuel2]; [lia |]. simpl. unfold bind.
    destruct (rsa.miller_rabin p rsa.default_tol t) as [[[] t1] | |] eqn:Em;
      try reflexivity.
    apply miller_rabin_tape in Em.
    destruct (randint lo hi t1) as [[p' t2] | |] eqn:Er; try reflexivity.
    apply randint_ret in Er as (_ & w & -> & _). simpl in Em.
    apply IH; lia.
Qed.

End PrimeSearch.

(** * Key generation *)

Section KeyGeneration.

Lemma carmichael_ret p q :
  2 <= p -> 2 <= q -> rsa._carmichael p q = Ret (Z.lcm (p - 1) (q - 1)).
Proof.
  intros Hp Hq. unfold rsa._carmichael, floordiv.
  assert (Z.gcd (p - 1) (q - 1) <> 0) as Hg.
  { intros Hg. apply Z.gcd_eq_0_l in Hg. lia. }
  destruct (Z.eqb_spec (Z.gcd (p - 1) (q - 1)) 0); [contradiction |].
  now rewrite carmichael_lcm.
Qed.

(** Everything a constructed [RSA] object satisfies. *)
Lemma init_ret psize t r t' :
  rsa.init psize t = Ret (r, t') ->
  (exists t1, rsa.find_prime psize t = Ret (rsa.p r, t1) /\
              rsa.find_prime psize t1 = Ret (rsa.q r, t')) /\
  rsa.psize r = psize /\
  rsa.n r = rsa.p r * rsa.q r /\
  rsa.keysize r = bit_length (rsa.n r) /\
  rsa.lam_n r = Z.lcm (rsa.p r - 1) (rsa.q r - 1) /\
  rsa.e r = 65537 /\
  Z.gcd 65537 (rsa.lam_n r) = 1 /\
  0 < rsa.lam_n r /\
  rsa.d r = Z.invmod 65537 (rsa.lam_n r).
Proof.
  unfold rsa.init. intros H.
  run_inv H. rename a into p, t0 into t1, Hrun into Hp.
  run_inv H. rename a into q, t0 into t2, Hrun into Hq.
  run_inv H. rename a into lam. run_inv Hrun.
  pose proof (find_prime_ge_2 _ _ _ _ Hp) as Hp2.
  pose proof (find_prime_ge_2 _ _ _ _ Hq) as Hq2.
  rewrite carmichael_ret in Hrun by assumption. injection Hrun as <-.
  destruct (Z.eqb_spec (Z.gcd 65537 (Z.lcm (p - 1) (q - 1))) 1) as [Hg | Hg];
    cbn [negb] in H; [| discriminate].
  assert (0 < Z.lcm (p - 1) (q - 1)) as Hl.
  { pose proof (Z.lcm_nonneg (p - 1) (q - 1)).
    destruct (Z.eq_dec (Z.lcm (p - 1) (q - 1)) 0) as [E0 | ]; [| lia].
    rewrite E0 in Hg. discriminate. }
  run_inv H. run_inv Hrun. run_inv H.
  rewrite pow3_inverse in Hrun by assumption. injection Hrun as <-.
  cbn [rsa.psize rsa.p rsa.q rsa.n rsa.keysize rsa.lam_n rsa.e rsa.d].
  repeat split; try assumption; try reflexivity.
  now exists t1.
Qed.

Lemma lam_one_iff p q :
  2 <= p -> 2 <= q -> (Z.lcm (p - 1) (q - 1) = 1 <-> p = 2 /\ q = 2).
Proof.
  intros Hp Hq. split.
  - intros Hl.
    pose proof (Z.divide_lcm_l (p - 1) (q - 1)) as Dp.
    pose proof (Z.divide_lcm_r (p - 1) (q - 1)) as Dq.
    rewrite Hl in Dp, Dq.
    apply Z.divide_1_r in Dp, Dq. lia.
  - intros [-> ->]. reflexivity.
Qed.

(** The product [e * d] is a positive exponent that is 1 modulo [p - 1]
    and modulo [q - 1] when the two factors differ. *)
Lemma key_exponent psize t r t' :
  rsa.init psize t = Ret (r, t') ->
  rsa.p r <> rsa.q r ->
  0 <= rsa.d r /\ 0 < rsa.e r * rsa.d r /\
  (rsa.p r - 1 | rsa.e r * rsa.d r - 1) /\
  (rsa.q r - 1 | rsa.e r * rsa.d r - 1).
Proof.
  intros Hi Hne.
  destruct (init_ret _ _ _ _ Hi)
    as ((t1 & Hp & Hq) & _ & _ & _ & Hlam & He & Hg & Hl & Hd).
  pose proof (find_prime_ge_2 _ _ _ _ Hp) as Hp2.
  pose proof (find_prime_ge_2 _ _ _ _ Hq) as Hq2.
  pose proof (Z.invmod_coprime' 65537 (rsa.lam_n r) Hg) as Hinv.
  rewrite <- Hd in Hinv.
  assert (0 <= rsa.d r < rsa.lam_n r) as Hdr.
  { rewrite Hd. unfold Z.invmod. apply Z.mod_pos_bound. assumption. }
  assert (rsa.lam_n r | rsa.e r * rsa.d r - 1) as Dl.
  { apply Z.mod_divide; [lia |]. apply Z.cong_iff_0.
    rewrite He, Z.mul_comm. exact Hinv. }
  assert (rsa.lam_n r <> 1) as Hl1.
  { rewrite Hlam. intros E1. apply lam_one_iff in E1; lia. }
  split; [lia |]. split.
  - rewrite He. destruct (Z.eq_dec (rsa.d r) 0) as [E0 | ]; [| lia].
    rewrite E0, Z.mul_0_r in Dl. simpl in Dl.
    apply Z.divide_opp_r, Z.divide_1_r in Dl. lia.
  - split; (eapply Z.divide_trans; [| exact Dl]); rewrite Hlam.
    + apply Z.divide_lcm_l.
    + apply Z.divide_lcm_r.
Qed.

(** Raising to [e] and then to [d] (or the other way round) modulo [n]
    gives back every residue, when [p] and [q] are distinct primes. *)
Lemma power_roundtrip psize t r t' x :
  rsa.init psize t = Ret (r, t') ->
  Z.prime (rsa.p r) -> Z.prime (rsa.q r) -> rsa.p r <> rsa.q r ->
  0 <= x < rsa.n r ->
  (x ^ rsa.e r mod rsa.n r) ^ rsa.d r mod rsa.n r = x /\
  (x ^ rsa.d r mod rsa.n r) ^ rsa.e r mod rsa.n r = x.
Proof.
  intros Hi Pp Pq Hne Hx.
  destruct (key_exponent _ _ _ _ Hi Hne) as (Hd0 & Hed & Dp & Dq).
  destruct (init_ret _ _ _ _ Hi) as (_ & _ & Hn & _ & _ & He & _).
  assert (0 <= rsa.e r) as He0 by lia.
  rewrite !Z.mod_pow_l, <- !Z.pow_mul_r by assumption.
  rewrite (Z.mul_comm (rsa.d r)).
  rewrite Hn in *.
  rewrite (rsa_identity _ _ _ x Pp Pq Hne Hed Dp Dq).
  split; apply Z.mod_small; assumption.
Qed.

End KeyGeneration.

(** * The two parties *)

Section Parties.

(** What [Alice.__init__] leaves in the object. *)
Lemma Alice_init_ret bits disclose t alice t' :
  Alice.init bits disclose t = Ret (alice, t') ->
  exists r t1 w0 w1,
    rsa.init bits t = Ret (r, t1) /\
    t1 = w0 :: w1 :: t' /\
    alice = Alice.mk r disclose 1234 5678
              (1000 + w0 mod 9001) (1000 + w1 mod 9001) None None None.
Proof.
  unfold Alice.init. intros H.
  run_inv H. rename a into r, t0 into t1, Hrun into Hr.
  run_inv H. apply randint_ret in Hrun as (_ & w0 & -> & ->).
  run_inv H. apply randint_ret in Hrun as (_ & w1 & -> & ->).
  run_inv H. now exists r, (w0 :: w1 :: t'), w0, w1.
Qed.

Lemma Alice_init_run bits disclose t r w0 w1 t' :
  rsa.init bits t = Ret (r, w0 :: w1 :: t') ->
  Alice.init bits disclose t =
  Ret (Alice.mk r disclose 1234 5678
         (1000 + w0 mod 9001) (1000 + w1 mod 9001) None None None, t').
Proof.
  intros Hr. unfold Alice.init, bind. rewrite Hr.
  rewrite !randint_cons by lia. reflexivity.
Qed.

Lemma choose_parameters_ret bob t bob' t' :
  Bob.choose_parameters bob t = Ret (bob', t') ->
  exists b k,
    (b = 0 \/ b = 1) /\ 0 <= k <= 2 ^ Bob.bits bob /\ 0 <= Bob.bits bob /\
    bob' = Bob.mk (Bob.bits bob) (Bob.disclose bob) (Bob.n_pub bob)
             (Bob.e_pub bob) (Bob.xs bob) (Some b) (Some k)
             (Bob.message bob).
Proof.
  unfold Bob.choose_parameters. intros H.
  run_inv H. rename a into b, Hrun into Hb.
  run_inv H. run_inv Hrun. apply int_pow_ret in Hrun as (Hbits & ->).
  run_inv H. apply randint_ret in Hrun as (Hk & _).
  run_inv H. exists b, a.
  split; [| split; [lia | split; [lia | reflexivity]]].
  unfold choice in Hb. destruct t as [| w t1]; [discriminate |].
  injection Hb as <- _.
  destruct (Z.to_nat (w mod 2)) as [| [| [| ?]]]; auto.
Qed.

(** The arithmetic of one slot of the exchange: blinding the nonce with
    [k ^ e], Alice's trapdoor step, and Bob's unblinding. *)
Lemma unblind n e d x k m :
  0 < n -> 0 <= d -> (k ^ e mod n) ^ d mod n = k -> 0 <= m < n ->
  ((m + ((x + k ^ e) mod n - x) ^ d mod n) mod n - k) mod n = m.
Proof.
  intros Hn Hd Hk Hm.
  assert (((x + k ^ e) mod n - x) ^ d mod n = k) as ->.
  { rewrite <- Z.mod_pow_l, Zminus_mod_idemp_l.
    replace (x + k ^ e - x) with (k ^ e) by ring. exact Hk. }
  rewrite Zminus_mod_idemp_l.
  replace (m + k - k) with m by ring.
  now apply Z.mod_small.
Qed.

End Parties.

(** * Properties of the specification *)

Section Examples.

Lemma trial_division_prime p : trial_division p = true -> Z.prime p.
Proof.
  unfold trial_division. intros H.
  apply andb_true_iff in H as (H1 & H2). apply Z.ltb_lt in H1.
  split; [assumption |]. intros n Hn Hd.
  rewrite forallb_forall in H2.
  specialize (H2 (Z.to_nat n)). rewrite Z2Nat.id in H2 by lia.
  assert (In (Z.to_nat n) (seq 2 (Z.to_nat p - 2))) as Hin
    by (apply in_seq; lia).
  apply H2 in Hin. apply negb_true_iff, Z.eqb_neq in Hin.
  apply Hin. apply Z.mod_divide; [lia | assumption].
Qed.

Lemma prime_5 : Z.prime 5.
Proof. apply trial_division_prime. vm_compute. reflexivity. Qed.

Lemma prime_7 : Z.prime 7.
Proof. apply trial_division_prime. vm_compute. reflexivity. Qed.

Lemma prime_131 : Z.prime 131.
Proof. apply trial_division_prime. vm_compute. reflexivity. Qed.

Lemma prime_137 : Z.prime 137.
Proof. apply trial_division_prime. vm_compute. reflexivity. Qed.

(** [miller_rabin] accepts the composite 2047 = 23 * 89 when every
    witness it draws is the base 2. *)
Example miller_rabin_accepts_2047 :
  rsa.miller_rabin 2047 rsa.default_tol (zeros 65) = Ret (true, []) /\
  2047 = 23 * 89.
Proof. split; vm_compute; reflexivity. Qed.

End Examples.

Section Claims.

(** C9. [miller_rabin] answers the special cases directly: [True] for 2
    and 3, [False] for 1 and for every even input other than 2; in all of
    them the tape of random draws comes back untouched, so no witness
    round has run. *)
Theorem miller_rabin_special_cases (n tol : Z) (t : tape) :
  n = 2 \/ n = 3 \/ n = 1 \/ n mod 2 = 0 ->
  rsa.miller_rabin n tol t = Ret ((n =? 2) || (n =? 3), t).
Proof.
  intros H. unfold rsa.miller_rabin.
  destruct ((n =? 2) || (n =? 3)) eqn:E23; [reflexivity |].
  apply orb_false_iff in E23 as (E2 & E3).
  apply Z.eqb_neq in E2, E3.
  destruct H as [H | [H | [H | H]]]; try contradiction.
  - subst n. reflexivity.
  - rewrite H. rewrite orb_true_r. reflexivity.
Qed.

Lemma miller_rabin_special_cases_witness :
  (4 = 2 \/ 4 = 3 \/ 4 = 1 \/ 4 mod 2 = 0) /\
  rsa.miller_rabin 4 rsa.default_tol [7; 7] = Ret (false, [7; 7]).
Proof.
  split.
  - right. right. right. reflexivity.
  - apply (miller_rabin_special_cases 4 rsa.default_tol [7; 7]).
    right. right. right. reflexivity.
Defined.

(** C10. Whatever [bits] is, a constructed [Alice] holds the messages
    1234 and 5678 and two nonces from the closed interval 1000..10000; the
    constructor has no argument for any of them. *)
Theorem Alice_fixed_messages (bits : Z) (disclose : bool) (t t' : tape)
  (alice : Alice.state) :
  Alice.init bits disclose t = Ret (alice, t') ->
  Alice.m0 alice = 1234 /\ Alice.m1 alice = 5678 /\
  1000 <= Alice.x0 alice <= 10000 /\ 1000 <= Alice.x1 alice <= 10000.
Proof.
  intros H. apply Alice_init_ret in H as (r & t1 & w0 & w1 & _ & _ & ->).
  cbn [Alice.m0 Alice.m1 Alice.x0 Alice.x1].
  pose proof (Z.mod_pos_bound w0 9001). pose proof (Z.mod_pos_bound w1 9001).
  repeat split; lia.
Qed.

Lemma Alice_fixed_messages_witness :
  exists alice t',
    Alice.init 2 false (tape_5_7 ++ [5; 9000]) = Ret (alice, t') /\
    Alice.m0 alice = 1234 /\ Alice.m1 alice = 5678 /\
    1000 <= Alice.x0 alice <= 10000 /\ 1000 <= Alice.x1 alice <= 10000.
Proof.
  eexists. eexists. 
  assert (Alice.init 2 false (tape_5_7 ++ [5; 9000]) =
          Ret (Alice.mk (rsa.mkRSA 2 5 7 35 6 12 65537 5) false 1234 5678
                 1005 10000 None None None, [])) as E
    by (vm_compute; reflexivity).
  split; [exact E |].
  exact (Alice_fixed_messages 2 false _ _ _ E).
Defined.

(** C8, as the code has it.  [Alice.__init__] makes no range check at
    all: as soon as key generation returns and two more draws are there,
    it returns an object holding 1234, 5678 and the two nonces as drawn,
    whatever the modulus is; and the only exceptions it can raise are the
    ones of key generation. *)
Theorem Alice_init_no_field_check (bits : Z) (disclose : bool) (t : tape) :
  (forall r w0 w1 t',
     rsa.init bits t = Ret (r, w0 :: w1 :: t') ->
     Alice.init bits disclose t =
     Ret (Alice.mk r disclose 1234 5678
            (1000 + w0 mod 9001) (1000 + w1 mod 9001) None None None, t')) /\
  (forall e, Alice.init bits disclose t = Raise e -> rsa.init bits t = Raise e).
Proof.
  split.
  - intros r w0 w1 t' Hr. now apply Alice_init_run.
  - intros e. unfold Alice.init, bind.
    destruct (rsa.init bits t) as [[r t1] | e' |]; try discriminate.
    + destruct t1 as [| w0 [| w1 t2]]; cbn; discriminate.
    + now intros [= ->].
Qed.

Lemma Alice_init_no_field_check_witness :
  rsa.init 2 (tape_5_7 ++ [5; 9000])
  = Ret (rsa.mkRSA 2 5 7 35 6 12 65537 5, [5; 9000]) /\
  Alice.init 2 false (tape_5_7 ++ [5; 9000])
  = Ret (Alice.mk (rsa.mkRSA 2 5 7 35 6 12 65537 5) false 1234 5678
           (1000 + 5 mod 9001) (1000 + 9000 mod 9001) None None None, []).
Proof.
  assert (rsa.init 2 (tape_5_7 ++ [5; 9000])
          = Ret (rsa.mkRSA 2 5 7 35 6 12 65537 5, [5; 9000])) as E
    by (vm_compute; reflexivity).
  split; [exact E |].
  exact (proj1 (Alice_init_no_field_check 2 false (tape_5_7 ++ [5; 9000]))
           _ 5 9000 [] E).
Defined.

(** C8 fails: with [p = 5] and [q = 7] the modulus is 35, both messages
    and both nonces are far above it, and construction returns. *)
Lemma Alice_init_out_of_field :
  exists alice,
    Alice.init 2 false (tape_5_7 ++ [5; 9000]) = Ret (alice, []) /\
    rsa.n (Alice.r alice) = 35 /\
    Alice.m0 alice = 1234 /\ Alice.m1 alice = 5678 /\
    Alice.x0 alice = 1005 /\ Alice.x1 alice = 10000.
Proof. eexists. vm_compute. repeat split. Qed.

(** C7, as the code has it.  On an [Alice] fresh from the constructor,
    [send_encrypted_messages] returns nothing: reading the attribute [k0],
    which only [receive_encrypted_choice] assigns, raises the interpreter's
    [AttributeError]. *)
Theorem send_before_receive (bits : Z) (disclose : bool) (t t' : tape)
  (alice : Alice.state) :
  Alice.init bits disclose t = Ret (alice, t') ->
  Alice.send_encrypted_messages alice = Raise (AttributeError "k0").
Proof.
  intros H. apply Alice_init_ret in H as (r & t1 & w0 & w1 & _ & _ & ->).
  reflexivity.
Qed.

Lemma send_before_receive_witness :
  exists alice,
    Alice.init 2 true (tape_5_7 ++ [0; 0]) = Ret (alice, []) /\
    Alice.send_encrypted_messages alice = Raise (AttributeError "k0").
Proof.
  eexists.
  assert (Alice.init 2 true (tape_5_7 ++ [0; 0]) =
          Ret (Alice.mk (rsa.mkRSA 2 5 7 35 6 12 65537 5) true 1234 5678
                 1000 1000 None None None, [])) as E
    by (vm_compute; reflexivity).
  split; [exact E |].
  exact (send_before_receive 2 true _ _ _ E).
Defined.

(** C7 fails as worded: the out-of-order call ends in the generic
    [AttributeError] of a missing attribute, not in an error of the
    protocol's own. *)
Lemma send_before_receive_is_attribute_error :
  exists alice,
    Alice.init 2 true (tape_5_7 ++ [0; 0]) = Ret (alice, []) /\
    Alice.k0 alice = None /\
    getattr "k0" (Alice.k0 alice) = Raise (AttributeError "k0") /\
    Alice.send_encrypted_messages alice = Raise (AttributeError "k0").
Proof.
  exists (Alice.mk (rsa.mkRSA 2 5 7 35 6 12 65537 5) true 1234 5678 1000 1000
            None None None).
  split; [vm_compute; reflexivity |]. repeat split.
Qed.

(** C4, as the code has it.  When [e] is not coprime to [lambda_n] for
    the two numbers found, the constructor does not draw again: the
    [assert] fails and the [AssertionError] reaches the caller. *)
Theorem init_asserts_coprime (psize p q : Z) (t t1 t2 : tape) :
  rsa.find_prime psize t = Ret (p, t1) ->
  rsa.find_prime psize t1 = Ret (q, t2) ->
  Z.gcd 65537 (Z.lcm (p - 1) (q - 1)) <> 1 ->
  rsa.init psize t = Raise (AssertionError "Must be co-prime!").
Proof.
  intros Hp Hq Hg. unfold rsa.init, bind. rewrite Hp, Hq.
  pose proof (find_prime_ge_2 _ _ _ _ Hp). pose proof (find_prime_ge_2 _ _ _ _ Hq).
  unfold lift. rewrite carmichael_ret by assumption.
  destruct (Z.eqb_spec (Z.gcd 65537 (Z.lcm (p - 1) (q - 1))) 1);
    [contradiction | reflexivity].
Qed.

Lemma init_asserts_coprime_witness :
  rsa.init 19 tape_917519 = Raise (AssertionError "Must be co-prime!").
Proof.
  apply (init_asserts_coprime 19 917519 917519 tape_917519
           ([393231] ++ zeros 65) []).
  - vm_compute. reflexivity.
  - vm_compute. reflexivity.
  - vm_compute. discriminate.
Defined.

(** C4 fails: at [bits = 19] key generation finds 917519 twice,
    [lambda_n = 917518 = 14 * 65537], and the caller gets the error. *)
Lemma init_does_not_retry :
  rsa.init 19 tape_917519 = Raise (AssertionError "Must be co-prime!") /\
  rsa.find_prime 19 tape_917519 = Ret (917519, [393231] ++ zeros 65) /\
  Z.gcd 65537 (917519 - 1) = 65537.
Proof. repeat split; vm_compute; reflexivity. Qed.

(** C3, as the code has it.  A constructed key has [e = 65537],
    [n = p * q], [lambda_n = |(p-1)(q-1)| / gcd(p-1, q-1)], [e] coprime to
    [lambda_n] and [e * d] congruent to 1 modulo [lambda_n]; the remainder
    of [e * d] is the number 1 except when [lambda_n = 1], which is the
    case [p = q = 2]. *)
Theorem key_validity (psize : Z) (t t' : tape) (r : rsa.RSA) :
  rsa.init psize t = Ret (r, t') ->
  rsa.e r = 65537 /\
  rsa.n r = rsa.p r * rsa.q r /\
  rsa.lam_n r =
    Z.abs ((rsa.p r - 1) * (rsa.q r - 1)) / Z.gcd (rsa.p r - 1) (rsa.q r - 1) /\
  Z.gcd (rsa.e r) (rsa.lam_n r) = 1 /\
  (rsa.e r * rsa.d r) mod rsa.lam_n r = 1 mod rsa.lam_n r /\
  (rsa.lam_n r <> 1 -> (rsa.e r * rsa.d r) mod rsa.lam_n r = 1) /\
  (rsa.lam_n r = 1 <-> rsa.p r = 2 /\ rsa.q r = 2).
Proof.
  intros Hi.
  destruct (init_ret _ _ _ _ Hi)
    as ((t1 & Hp & Hq) & _ & Hn & _ & Hlam & He & Hg & Hl & Hd).
  pose proof (find_prime_ge_2 _ _ _ _ Hp) as Hp2.
  pose proof (find_prime_ge_2 _ _ _ _ Hq) as Hq2.
  assert ((rsa.e r * rsa.d r) mod rsa.lam_n r = 1 mod rsa.lam_n r) as Hed.
  { rewrite He, Hd, Z.mul_comm. now apply Z.invmod_coprime'. }
  repeat split; try assumption.
  - rewrite Hlam. symmetry. apply carmichael_lcm.
    intros Hz. apply Z.gcd_eq_0_l in Hz. lia.
  - now rewrite He.
  - intros Hl1. rewrite Hed. apply Z.mod_1_l. lia.
  - rewrite Hlam in H. apply lam_one_iff in H; [tauto | lia | lia].
  - rewrite Hlam in H. apply lam_one_iff in H; [tauto | lia | lia].
  - intros [E1 E2]. rewrite Hlam, E1, E2. reflexivity.
Qed.

Lemma key_validity_witness :
  exists r,
    rsa.init 2 tape_5_7 = Ret (r, []) /\
    rsa.e r = 65537 /\
    rsa.n r = rsa.p r * rsa.q r /\
    rsa.lam_n r =
      Z.abs ((rsa.p r - 1) * (rsa.q r - 1)) / Z.gcd (rsa.p r - 1) (rsa.q r - 1) /\
    Z.gcd (rsa.e r) (rsa.lam_n r) = 1 /\
    (rsa.e r * rsa.d r) mod rsa.lam_n r = 1 mod rsa.lam_n r /\
    (rsa.lam_n r <> 1 -> (rsa.e r * rsa.d r) mod rsa.lam_n r = 1) /\
    (rsa.lam_n r = 1 <-> rsa.p r = 2 /\ rsa.q r = 2).
Proof.
  eexists.
  assert (rsa.init 2 tape_5_7 = Ret (rsa.mkRSA 2 5 7 35 6 12 65537 5, [])) as E
    by (vm_compute; reflexivity).
  split; [exact E |].
  exact (key_validity 2 _ _ _ E).
Defined.

(** C3 fails at [p = q = 2]: then [lambda_n = 1], [d = 0], and the
    remainder of [e * d] modulo [lambda_n] is 0. *)
Lemma key_validity_fails_at_2_2 :
  exists r,
    rsa.init 1 [0; 0] = Ret (r, []) /\
    rsa.p r = 2 /\ rsa.q r = 2 /\ rsa.lam_n r = 1 /\ rsa.d r = 0 /\
    (rsa.e r * rsa.d r) mod rsa.lam_n r <> 1.
Proof. eexists. vm_compute. repeat split. discriminate. Qed.

Lemma candidates_loop_range fuel lo hi p t c :
  lo <= p <= hi -> In c (rsa.candidates_loop fuel lo hi p t) -> lo <= c <= hi.
Proof.
  revert p t. induction fuel as [| fuel IH]; intros p t Hp Hin; simpl in Hin.
  - contradiction.
  - destruct Hin as [<- | Hin]; [assumption |].
    destruct (rsa.miller_rabin p rsa.default_tol t) as [[[] t1] | |];
      try contradiction.
    destruct (randint lo hi t1) as [[p' t2] | |] eqn:Er; try contradiction.
    apply randint_ret in Er as (Hr & _). eapply IH; eassumption.
Qed.

Lemma candidates_loop_ret fuel lo hi p t x t' :
  rsa.find_prime_loop fuel lo hi p t = Ret (x, t') ->
  exists cs,
    rsa.candidates_loop fuel lo hi p t = cs ++ [x] /\
    Forall (fun c => exists t0 t1,
              rsa.miller_rabin c rsa.default_tol t0 = Ret (false, t1)) cs /\
    exists t0, rsa.miller_rabin x rsa.default_tol t0 = Ret (true, t').
Proof.
  revert p t. induction fuel as [| fuel IH]; intros p t H; simpl in H.
  - discriminate.
  - run_inv H. simpl. rewrite Hrun. destruct a.
    + run_inv H. exists []. repeat split; [constructor | now exists t].
    + run_inv H. rewrite Hrun0.
      apply IH in H as (cs & -> & Hcs & Hx).
      exists (p :: cs). repeat split; [| assumption].
      constructor; [now exists t, t0 | assumption].
Qed.

(** C5, as the code has it.  Every candidate [find_prime] hands to the
    primality test is an integer of the closed interval
    [2^bits .. 2^(bits+1)]; and when [find_prime] returns [p], the
    candidates drawn are some numbers that the test rejected, followed by
    [p], which the test accepted. *)
Theorem find_prime_candidates (bits : Z) (t : tape) :
  (forall c, In c (rsa.candidates bits t) ->
             2 ^ bits <= c <= 2 ^ (bits + 1)) /\
  (forall p t',
     rsa.find_prime bits t = Ret (p, t') ->
     exists cs,
       rsa.candidates bits t = cs ++ [p] /\
       Forall (fun c => exists t0 t1,
                 rsa.miller_rabin c rsa.default_tol t0 = Ret (false, t1)) cs /\
       exists t0, rsa.miller_rabin p rsa.default_tol t0 = Ret (true, t')).
Proof.
  split.
  - intros c. unfold rsa.candidates.
    destruct (int_pow 2 bits) as [lo | |] eqn:Elo; try contradiction.
    destruct (int_pow 2 (bits + 1)) as [hi | |] eqn:Ehi; try contradiction.
    apply int_pow_ret in Elo as (_ & ->). apply int_pow_ret in Ehi as (_ & ->).
    destruct (randint (2 ^ bits) (2 ^ (bits + 1)) t) as [[p t1] | |] eqn:Er;
      try contradiction.
    apply randint_ret in Er as (Hr & _).
    now apply candidates_loop_range.
  - intros p t' H. unfold rsa.find_prime in H. unfold rsa.candidates.
    run_inv H. run_inv Hrun. rewrite Hrun.
    run_inv H. run_inv Hrun0. rewrite Hrun0.
    run_inv H. rewrite Hrun1.
    now apply candidates_loop_ret.
Qed.

Lemma find_prime_candidates_witness :
  rsa.find_prime 1 [2; 1] = Ret (3, []) /\
  rsa.candidates 1 [2; 1] = [4; 3] /\
  2 ^ 1 <= 4 <= 2 ^ (1 + 1) /\
  exists cs,
    rsa.candidates 1 [2; 1] = cs ++ [3] /\
    Forall (fun c => exists t0 t1,
              rsa.miller_rabin c rsa.default_tol t0 = Ret (false, t1)) cs /\
    exists t0, rsa.miller_rabin 3 rsa.default_tol t0 = Ret (true, []).
Proof.
  assert (rsa.find_prime 1 [2; 1] = Ret (3, [])) as E
    by (vm_compute; reflexivity).
  split; [exact E |]. split; [vm_compute; reflexivity |]. split.
  - apply (proj1 (find_prime_candidates 1 [2; 1]) 4).
    vm_compute. left. reflexivity.
  - exact (proj2 (find_prime_candidates 1 [2; 1]) 3 [] E).
Defined.

(** C5 fails: at [bits = 1] the first candidate of this run is 4, which
    is even and is the excluded upper end [2^(bits+1)]; the test rejects
    it and the next candidate is returned. *)
Lemma find_prime_even_candidate :
  rsa.candidates 1 [2; 1] = [4; 3] /\
  rsa.find_prime 1 [2; 1] = Ret (3, []) /\
  4 mod 2 = 0 /\ ~ (2 ^ 1 <= 4 < 2 ^ (1 + 1)).
Proof.
  repeat split; try (vm_compute; reflexivity).
  intros [_ H]. vm_compute in H. discriminate.
Qed.

(** ** Round trips of the key *)

Lemma init_modulus psize t r t' :
  rsa.init psize t = Ret (r, t') -> 4 <= rsa.n r /\ 0 <= rsa.e r.
Proof.
  intros Hi.
  destruct (init_ret _ _ _ _ Hi) as ((t1 & Hp & Hq) & _ & Hn & _ & _ & He & _).
  pose proof (find_prime_ge_2 _ _ _ _ Hp). pose proof (find_prime_ge_2 _ _ _ _ Hq).
  split; [nia | lia].
Qed.

(** C2, as the code has it.  For a key whose [p] and [q] are two
    different primes, decrypting the encryption of any [m] with
    [0 <= m < n] under the key's own public key gives [m] back. *)
Theorem rsa_roundtrip (psize : Z) (t t' : tape) (r : rsa.RSA) (m : Z) :
  rsa.init psize t = Ret (r, t') ->
  Z.prime (rsa.p r) -> Z.prime (rsa.q r) -> rsa.p r <> rsa.q r ->
  0 <= m < rsa.n r ->
  (c <~ rsa.encrypt r m (rsa.publickey r) ;; rsa.decrypt r c) = Ret m.
Proof.
  intros Hi Pp Pq Hne Hm.
  destruct (init_modulus _ _ _ _ Hi) as (Hn & He).
  destruct (key_exponent _ _ _ _ Hi Hne) as (Hd & _).
  destruct (power_roundtrip _ _ _ _ m Hi Pp Pq Hne Hm) as (Hrt & _).
  unfold rsa.encrypt, rsa.publickey, rsa.decrypt.
  rewrite pow3_nonneg by lia. cbn [obind].
  rewrite pow3_nonneg by lia. now rewrite Hrt.
Qed.

Lemma rsa_roundtrip_witness :
  exists r,
    rsa.init 2 tape_5_7 = Ret (r, []) /\
    (c <~ rsa.encrypt r 33 (rsa.publickey r) ;; rsa.decrypt r c) = Ret 33.
Proof.
  eexists.
  assert (rsa.init 2 tape_5_7 = Ret (rsa.mkRSA 2 5 7 35 6 12 65537 5, [])) as E
    by (vm_compute; reflexivity).
  split; [exact E |].
  apply (rsa_roundtrip 2 _ _ _ 33 E).
  - exact prime_5.
  - exact prime_7.
  - discriminate.
  - cbn. lia.
Defined.

(** C2 fails when the two searches find the same prime: with
    [p = q = 3] the message 3 is below [n = 9], is encrypted to 0 and
    decrypted to 0. *)
Lemma rsa_roundtrip_fails_at_3_3 :
  exists r,
    rsa.init 1 [1; 1] = Ret (r, []) /\
    rsa.p r = 3 /\ rsa.q r = 3 /\ 0 <= 3 < rsa.n r /\
    (c <~ rsa.encrypt r 3 (rsa.publickey r) ;; rsa.decrypt r c) = Ret 0.
Proof.
  exists (rsa.mkRSA 1 3 3 9 4 2 65537 1).
  split; [vm_compute; reflexivity |].
  cbn [rsa.p rsa.q rsa.n].
  split; [reflexivity |]. split; [reflexivity |]. split; [lia |].
  vm_compute. reflexivity.
Qed.

(** C6, as the code has it.  For a key whose [p] and [q] are two
    different primes and any [m] with [0 <= m < n], verifying what the key
    signed and encrypted for itself returns [(True, m)]. *)
Theorem sign_roundtrip (psize : Z) (t t' : tape) (r : rsa.RSA) (m : Z) :
  rsa.init psize t = Ret (r, t') ->
  Z.prime (rsa.p r) -> Z.prime (rsa.q r) -> rsa.p r <> rsa.q r ->
  0 <= m < rsa.n r ->
  (sm <~ rsa.encrypt_and_sign r m (rsa.publickey r) ;;
   rsa.decrypt_and_verify r sm (rsa.publickey r)) = Ret (true, m).
Proof.
  intros Hi Pp Pq Hne Hm.
  destruct (init_modulus _ _ _ _ Hi) as (Hn & He).
  destruct (key_exponent _ _ _ _ Hi Hne) as (Hd & _).
  destruct (power_roundtrip _ _ _ _ m Hi Pp Pq Hne Hm) as (Hrt & _).
  assert (0 <= hash m < hash_modulus /\ hash m <= m) as (Hh & Hhm).
  { rewrite hash_nonneg by lia.
    assert (0 < hash_modulus) as Hpos by reflexivity.
    pose proof (Z.mod_pos_bound m hash_modulus Hpos).
    pose proof (Z.mod_le m hash_modulus). lia. }
  assert (0 <= hash m < rsa.n r) as Hhn by lia.
  destruct (power_roundtrip _ _ _ _ (hash m) Hi Pp Pq Hne Hhn) as (_ & Hsg).
  unfold rsa.encrypt_and_sign, rsa.decrypt_and_verify, rsa.encrypt,
    rsa.publickey, rsa.decrypt.
  rewrite !pow3_nonneg by lia. cbn [obind].
  rewrite !pow3_nonneg by lia. cbn [obind].
  rewrite Hrt, Hsg, (hash_small (hash m)) by assumption.
  now rewrite Z.eqb_refl.
Qed.

Lemma sign_roundtrip_witness :
  exists r,
    rsa.init 2 tape_5_7 = Ret (r, []) /\
    (sm <~ rsa.encrypt_and_sign r 33 (rsa.publickey r) ;;
     rsa.decrypt_and_verify r sm (rsa.publickey r)) = Ret (true, 33).
Proof.
  eexists.
  assert (rsa.init 2 tape_5_7 = Ret (rsa.mkRSA 2 5 7 35 6 12 65537 5, [])) as E
    by (vm_compute; reflexivity).
  split; [exact E |].
  apply (sign_roundtrip 2 _ _ _ 33 E).
  - exact prime_5.
  - exact prime_7.
  - discriminate.
  - cbn. lia.
Defined.

(** C6 fails when the two searches find the same prime: with
    [p = q = 3] and the message 3, verification answers [True] with the
    plaintext 0. *)
Lemma sign_roundtrip_fails_at_3_3 :
  exists r,
    rsa.init 1 [1; 1] = Ret (r, []) /\
    rsa.p r = 3 /\ rsa.q r = 3 /\ 0 <= 3 < rsa.n r /\
    (sm <~ rsa.encrypt_and_sign r 3 (rsa.publickey r) ;;
     rsa.decrypt_and_verify r sm (rsa.publickey r)) = Ret (true, 0).
Proof.
  exists (rsa.mkRSA 1 3 3 9 4 2 65537 1).
  split; [vm_compute; reflexivity |].
  cbn [rsa.p rsa.q rsa.n].
  split; [reflexivity |]. split; [reflexivity |]. split; [lia |].
  vm_compute. reflexivity.
Qed.

(** ** The exchange *)

Lemma send_encrypted_choice_run bits dis n e x0 x1 b k msg :
  b = 0 \/ b = 1 -> 0 <= e -> n <> 0 ->
  Bob.send_encrypted_choice
    (Bob.mk bits dis (Some n) (Some e) (Some (x0, x1)) (Some b) (Some k) msg)
  = Ret (((if b =? 0 then x0 else x1) + k ^ e) mod n).
Proof.
  intros Hb He Hn. unfold Bob.send_encrypted_choice, Bob.getxs.
  cbn [Bob.xs Bob.b Bob.k Bob.e_pub Bob.n_pub obind getattr].
  assert (getitem (x0, x1) b = Ret (if b =? 0 then x0 else x1)) as ->
    by (destruct Hb as [-> | ->]; reflexivity).
  cbn [obind]. unfold int_pow.
  destruct (Z.ltb_spec e 0); [lia |]. cbn [obind]. unfold mod_.
  destruct (Z.eqb_spec n 0); [contradiction | reflexivity].
Qed.

Lemma receive_encrypted_choice_run alice c :
  rsa.n (Alice.r alice) <> 0 -> 0 <= rsa.d (Alice.r alice) ->
  Alice.receive_encrypted_choice alice c =
  Ret (Alice.mk (Alice.r alice) (Alice.disclose alice) (Alice.m0 alice)
         (Alice.m1 alice) (Alice.x0 alice) (Alice.x1 alice) (Some c)
         (Some ((c - Alice.x0 alice) ^ rsa.d (Alice.r alice)
                mod rsa.n (Alice.r alice)))
         (Some ((c - Alice.x1 alice) ^ rsa.d (Alice.r alice)
                mod rsa.n (Alice.r alice)))).
Proof.
  intros Hn Hd. unfold Alice.receive_encrypted_choice, Alice.set_v.
  cbn [Alice.r Alice.x0 Alice.x1 Alice.v Alice.k0 Alice.k1 Alice.m0 Alice.m1
       Alice.disclose obind getattr].
  rewrite pow3_nonneg by assumption. cbn [obind]. unfold Alice.set_k0.
  cbn [Alice.r Alice.x0 Alice.x1 Alice.v Alice.k0 Alice.k1 Alice.m0 Alice.m1
       Alice.disclose obind getattr].
  rewrite pow3_nonneg by assumption. reflexivity.
Qed.

Lemma send_encrypted_messages_run r dis m0 m1 x0 x1 v a0 a1 :
  rsa.n r <> 0 ->
  Alice.send_encrypted_messages
    (Alice.mk r dis m0 m1 x0 x1 v (Some a0) (Some a1))
  = Ret ((m0 + a0) mod rsa.n r, (m1 + a1) mod rsa.n r).
Proof.
  intros Hn. unfold Alice.send_encrypted_messages, mod_.
  cbn [Alice.r Alice.k0 Alice.k1 Alice.m0 Alice.m1 obind getattr].
  destruct (Z.eqb_spec (rsa.n r) 0); [contradiction | reflexivity].
Qed.

Lemma decrypt_choice_run bits dis n e xs b k msg y0 y1 :
  b = 0 \/ b = 1 -> n <> 0 ->
  Bob.decrypt_choice (Bob.mk bits dis (Some n) e xs (Some b) (Some k) msg)
    (y0, y1)
  = Ret (Bob.mk bits dis (Some n) e xs (Some b) (Some k)
           (Some (((if b =? 0 then y0 else y1) - k) mod n))).
Proof.
  intros Hb Hn. unfold Bob.decrypt_choice.
  cbn [Bob.bits Bob.disclose Bob.xs Bob.b Bob.k Bob.e_pub Bob.n_pub obind
       getattr].
  assert (getitem (y0, y1) b = Ret (if b =? 0 then y0 else y1)) as ->
    by (destruct Hb as [-> | ->]; reflexivity).
  cbn [obind]. unfold mod_.
  destruct (Z.eqb_spec n 0); [contradiction | reflexivity].
Qed.

(** What a completed exchange leaves in the two objects. *)
Lemma exchange_ret bits disclose t alice bob t' :
  exchange bits disclose t = Ret ((alice, bob), t') ->
  exists r t1 x0 x1 b k,
    rsa.init bits t = Ret (r, t1) /\
    (b = 0 \/ b = 1) /\ 0 <= k <= 2 ^ bits /\ 0 <= bits /\
    let n := rsa.n r in
    let c := ((if b =? 0 then x0 else x1) + k ^ rsa.e r) mod n in
    let k0 := (c - x0) ^ rsa.d r mod n in
    let k1 := (c - x1) ^ rsa.d r mod n in
    let y0 := (1234 + k0) mod n in
    let y1 := (5678 + k1) mod n in
    alice = Alice.mk r disclose 1234 5678 x0 x1 (Some c) (Some k0) (Some k1) /\
    bob = Bob.mk bits disclose (Some n) (Some (rsa.e r)) (Some (x0, x1))
            (Some b) (Some k)
            (Some (((if b =? 0 then y0 else y1) - k) mod n)).
Proof.
  unfold exchange. intros H.
  run_inv H. rename a into alice0, Hrun into Ha.
  apply Alice_init_ret in Ha as (r & t1 & w0 & w1 & Hr & -> & ->).
  cbv [Bob.init Bob.receive_publickey Bob.receive_random_messages
       Alice.send_publickey Alice.send_random_messages rsa.publickey
       Alice.r Alice.x0 Alice.x1 Bob.bits Bob.disclose Bob.n_pub Bob.e_pub
       Bob.xs Bob.b Bob.k Bob.message] in H.
  run_inv H. rename a into bob1, Hrun into Hc.
  apply choose_parameters_ret in Hc as (b & k & Hb & Hk & Hbits & ->).
  cbn [Bob.bits Bob.disclose Bob.n_pub Bob.e_pub Bob.xs Bob.message] in *.
  destruct (init_modulus _ _ _ _ Hr) as (Hn & He).
  destruct (init_ret _ _ _ _ Hr) as (_ & _ & _ & _ & _ & _ & _ & Hl & Hd).
  assert (0 <= rsa.d r) as Hd0.
  { rewrite Hd. unfold Z.invmod. apply Z.mod_pos_bound. assumption. }
  run_inv H. run_inv Hrun.
  rewrite send_encrypted_choice_run in Hrun by (assumption || lia).
  injection Hrun as <-.
  run_inv H. run_inv Hrun.
  rewrite receive_encrypted_choice_run in Hrun
    by (cbn [Alice.r]; (assumption || lia)).
  injection Hrun as <-.
  cbn [Alice.r Alice.disclose Alice.m0 Alice.m1 Alice.x0 Alice.x1] in H.
  run_inv H. run_inv Hrun.
  rewrite send_encrypted_messages_run in Hrun by lia.
  injection Hrun as <-.
  run_inv H. run_inv Hrun.
  rewrite decrypt_choice_run in Hrun by (assumption || lia).
  injection Hrun as <-.
  run_inv H. injection H as <- <-.
  exists r. eexists. exists (1000 + w0 mod 9001), (1000 + w1 mod 9001), b, k.
  split; [exact Hr |]. repeat split; try assumption; lia.
Qed.

(** C1, as the code has it.  When the two numbers key generation found
    are different primes and the message Bob chose is below the modulus,
    a completed exchange leaves in [bob.message] exactly the message
    [m_b] of Alice; Bob's choice [b] is 0 or 1 and his blinding factor
    lies in [0 .. 2^bits]. *)
Theorem ot_correct (bits : Z) (disclose : bool) (t t' : tape)
  (alice : Alice.state) (bob : Bob.state) (b : Z) :
  exchange bits disclose t = Ret ((alice, bob), t') ->
  Z.prime (rsa.p (Alice.r alice)) ->
  Z.prime (rsa.q (Alice.r alice)) ->
  rsa.p (Alice.r alice) <> rsa.q (Alice.r alice) ->
  Bob.b bob = Some b ->
  chosen_message alice b < rsa.n (Alice.r alice) ->
  (b = 0 \/ b = 1) /\
  (exists k, Bob.k bob = Some k /\ 0 <= k <= 2 ^ bits) /\
  Bob.message bob = Some (chosen_message alice b).
Proof.
  intros H Pp Pq Hne Hb Hm.
  apply exchange_ret in H
    as (r & t1 & x0 & x1 & b' & k & Hr & Hb' & Hk & Hbits & Ha & Hbob).
  subst alice bob. cbn [Alice.r Bob.b Bob.k Bob.message] in *.
  injection Hb as ->.
  split; [assumption |]. split; [now exists k |].
  destruct (init_ret _ _ _ _ Hr)
    as ((t0 & Hp & Hq) & _ & Hn & _ & _ & _ & _ & _ & _).
  destruct (key_exponent _ _ _ _ Hr Hne) as (Hd & _).
  pose proof (find_prime_ge_2 _ _ _ _ Hq) as Hq2.
  apply find_prime_ret in Hp as (_ & (Hlo & _) & _).
  assert (0 < 2 ^ bits) as Hpow by (apply Z.pow_pos_nonneg; lia).
  assert (0 <= k < rsa.n r) as Hkn by (rewrite Hn; nia).
  destruct (power_roundtrip _ _ _ _ k Hr Pp Pq Hne Hkn) as (Hrt & _).
  f_equal. unfold chosen_message in *. cbn [Alice.m0 Alice.m1] in *.
  destruct Hb' as [-> | ->]; cbn [Z.eqb] in *.
  - apply unblind; (assumption || lia).
  - apply unblind; (assumption || lia).
Qed.

Lemma ot_correct_witness :
  exists alice bob,
    exchange 7 false (tape_131_137 ++ [5; 7; 1; 2]) = Ret ((alice, bob), []) /\
    rsa.n (Alice.r alice) = 17947 /\
    Bob.b bob = Some 1 /\ Bob.k bob = Some 2 /\
    Bob.message bob = Some 5678.
Proof.
  pose (r := rsa.mkRSA 7 131 137 17947 15 8840 65537 3273).
  pose (alice := Alice.mk r false 1234 5678 1005 1007
                   (Some 5402) (Some 15469) (Some 2)).
  pose (bob := Bob.mk 7 false (Some 17947) (Some 65537) (Some (1005, 1007))
                 (Some 1) (Some 2) (Some 5678)).
  exists alice, bob.
  assert (exchange 7 false (tape_131_137 ++ [5; 7; 1; 2])
          = Ret ((alice, bob), [])) as E by (vm_compute; reflexivity).
  split; [exact E |]. split; [reflexivity |].
  split; [reflexivity |]. split; [reflexivity |].
  refine (proj2 (proj2 (ot_correct 7 false _ _ alice bob 1 E _ _ _ _ _))).
  - exact prime_131.
  - exact prime_137.
  - discriminate.
  - reflexivity.
  - reflexivity.
Defined.

(** C1 fails on a small key: with [p = 5] and [q = 7] the modulus 35 is
    below both messages; Bob chooses [b = 1] and ends with 8, which is
    5678 reduced modulo 35. *)
Lemma ot_fails_below_message :
  exists alice bob,
    exchange 2 false (tape_5_7 ++ [0; 0; 1; 2]) = Ret ((alice, bob), []) /\
    rsa.p (Alice.r alice) = 5 /\ rsa.q (Alice.r alice) = 7 /\
    Bob.b bob = Some 1 /\ Bob.k bob = Some 2 /\
    Alice.m1 alice = 5678 /\
    Bob.message bob = Some 8.
Proof.
  exists (Alice.mk (rsa.mkRSA 2 5 7 35 6 12 65537 5) false 1234 5678 1000 1000
            (Some 17) (Some 2) (Some 2)),
         (Bob.mk 2 false (Some 35) (Some 65537) (Some (1000, 1000))
            (Some 1) (Some 2) (Some 8)).
  split; [vm_compute; reflexivity |]. repeat split.
Qed.

(** The exchange also fails when both searches find the same prime, even
    with a modulus above the messages: with [p = q = 131] Bob chooses
    [b = 1] and ends with 12359. *)
Example ot_fails_at_equal_primes :
  exists alice bob,
    exchange 7 false ([3] ++ zeros 65 ++ [3] ++ zeros 65 ++ [5; 7; 1; 2])
    = Ret ((alice, bob), []) /\
    rsa.p (Alice.r alice) = 131 /\ rsa.q (Alice.r alice) = 131 /\
    rsa.n (Alice.r alice) = 17161 /\
    Bob.b bob = Some 1 /\ Alice.m1 alice = 5678 /\
    Bob.message bob = Some 12359.
Proof.
  exists (Alice.mk (rsa.mkRSA 7 131 131 17161 15 130 65537 23) false 1234 5678
            1005 1007 (Some 14179) (Some 13635) (Some 6683)),
         (Bob.mk 7 false (Some 17161) (Some 65537) (Some (1005, 1007))
            (Some 1) (Some 2) (Some 12359)).
  split; [vm_compute; reflexivity |]. repeat split.
Qed.

End Claims.

(** * Further properties of rsa.py *)

Section MillerRabin.

(** [get_dr] with enough fuel splits any [d <> 0] into an odd part and a
    power of two. *)
Lemma get_dr_ret fuel d r :
  d <> 0 -> (Z.to_nat (Z.log2 (Z.abs d)) < fuel)%nat ->
  exists d' r',
    rsa.get_dr fuel d r = Ret (d', r') /\
    d' mod 2 <> 0 /\ r <= r' /\ d = 2 ^ (r' - r) * d'.
Proof.
  revert d r. induction fuel as [| fuel IH]; intros d r Hd Hf; [lia |].
  simpl. destruct (Z.eqb_spec (d mod 2) 0) as [He | Ho]; cbn [negb].
  - assert (d = 2 * (d / 2)) as Hd2.
    { pose proof (Z.div_mod d 2 ltac:(lia)). lia. }
    assert (d / 2 <> 0) as Hn by lia.
    assert (Z.log2 (Z.abs d) = Z.succ (Z.log2 (Z.abs (d / 2)))) as Hl.
    { rewrite Hd2 at 1. rewrite Z.abs_mul. change (Z.abs 2) with 2.
      apply Z.log2_double. lia. }
    pose proof (Z.log2_nonneg (Z.abs (d / 2))).
    destruct (IH (d / 2) (r + 1) Hn) as (d' & r' & E & Hodd & Hr & Hdec);
      [lia |].
    exists d', r'. repeat split; try assumption; try lia.
    rewrite Hd2 at 1. rewrite Hdec.
    replace (r' - r) with (Z.succ (r' - (r + 1))) by lia.
    rewrite Z.pow_succ_r by lia. ring.
  - exists d, r. repeat split; try assumption; try lia.
    rewrite Z.sub_diag, Z.pow_0_r. lia.
Qed.









End MillerRabin.

Section NoError.

Lemma test_loop_returns i n x : n <> 0 -> exists b, rsa.test_loop i n x = Ret b.
Proof.
  intros Hn. revert x. induction i as [| i IH]; intros x; cbn [rsa.test_loop].
  - now exists false.
  - destruct ((x =? 1) || (x =? n - 1)); [now exists true |].
    unfold mod_. destruct (Z.eqb_spec n 0); [contradiction |]. cbn [obind].
    apply IH.
Qed.

Lemma test_cases n d r t :
  5 <= n -> 0 <= d ->
  match t with
  | [] => rsa.test n d r t = Starved
  | _ :: t' => exists b, rsa.test n d r t = Ret (b, t')
  end.
Proof.
  intros Hn Hd. unfold rsa.test, bind, randint.
  destruct (Z.ltb_spec (n - 2) 2); [lia |].
  destruct t as [| w t']; [reflexivity |].
  unfold lift. rewrite pow3_nonneg by lia.
  destruct (test_loop_returns (Z.to_nat r) n
              ((2 + w mod (n - 2 - 2 + 1)) ^ d mod n) ltac:(lia)) as (b & ->).
  now exists b.
Qed.

Lemma all_tests_cases k n d r t :
  5 <= n -> 0 <= d ->
  (exists b t',
     rsa.all_tests k n d r t = Ret (b, t') /\
     (length t' <= length t /\ length t - length t' <= k)%nat) \/
  (rsa.all_tests k n d r t = Starved /\ (length t < k)%nat).
Proof.
  intros Hn Hd. revert t. induction k as [| k IH]; intros t.
  - left. exists true, t. split; [reflexivity | lia].
  - cbn [rsa.all_tests]. unfold bind.
    pose proof (test_cases n d r t Hn Hd) as Ht.
    destruct t as [| w t'].
    + right. rewrite Ht. split; [reflexivity | cbn [length]; lia].
    + destruct Ht as (b & ->). destruct b.
      * destruct (IH t') as [(b & t2 & E & Hl) | (E & Hl)].
        -- left. exists b, t2. split; [exact E | cbn [length]; lia].
        -- right. split; [exact E | cbn [length]; lia].
      * left. exists false, t'. split; [reflexivity | cbn [length]; lia].
Qed.

Lemma miller_rabin_cases n tol t :
  0 <= n ->
  (exists b t',
     rsa.miller_rabin n tol t = Ret (b, t') /\
     (length t' <= length t /\
      length t - length t' <= Z.to_nat (tol / 2 + 1))%nat) \/
  (rsa.miller_rabin n tol t = Starved /\
   (length t < Z.to_nat (tol / 2 + 1))%nat).
Proof.
  intros Hn. unfold rsa.miller_rabin.
  destruct ((n =? 2) || (n =? 3)) eqn:E23.
  { left. exists true, t. split; [reflexivity | lia]. }
  apply orb_false_iff in E23 as (E2 & E3). apply Z.eqb_neq in E2, E3.
  destruct (Z.eqb_spec n 1) as [-> | N1].
  { left. exists false, t. split; [reflexivity | lia]. }
  destruct (Z.eqb_spec (n mod 2) 0) as [He | Ho]; cbn [orb].
  { left. exists false, t. split; [reflexivity | lia]. }
  assert (n <> 0 /\ n <> 4) as (N0 & N4) by (split; intros ->; apply Ho; reflexivity).
  destruct (get_dr_ret (S (Z.to_nat (Z.log2 (Z.abs (n - 1))))) (n - 1) 0)
    as (d & r & E & Hd & Hr & Hdec); [lia | lia |].
  unfold bind, lift. rewrite E. rewrite Z.sub_0_r in Hdec.
  assert (0 < 2 ^ r) by (apply Z.pow_pos_nonneg; lia).
  apply all_tests_cases; [lia | nia].
Qed.









Lemma find_prime_loop_no_error fuel lo hi p t :
  1 <= lo -> lo <= hi -> lo <= p ->
  (exists x t', rsa.find_prime_loop fuel lo hi p t = Ret (x, t')) \/
  rsa.find_prime_loop fuel lo hi p t = Starved.
Proof.
  intros Hlo Hhi. revert p t. induction fuel as [| fuel IH]; intros p t Hp.
  - now right.
  - cbn [rsa.find_prime_loop]. unfold bind.
    destruct (miller_rabin_cases p rsa.default_tol t ltac:(lia))
      as [(b & t1 & -> & _) | (-> & _)]; [| now right].
    destruct b; [left; now exists p, t1 |].
    unfold randint. destruct (Z.ltb_spec hi lo); [lia |].
    destruct t1 as [| w t2]; [now right |].
    apply IH. pose proof (Z.mod_pos_bound w (hi - lo + 1)). lia.
Qed.

Lemma find_prime_cases bits t :
  0 <= bits ->
  (exists p t', rsa.find_prime bits t = Ret (p, t')) \/
  rsa.find_prime bits t = Starved.
Proof.
  intros Hb. unfold rsa.find_prime, bind, lift, int_pow.
  destruct (Z.ltb_spec bits 0); [lia |].
  destruct (Z.ltb_spec (bits + 1) 0); [lia |].
  assert (0 < 2 ^ bits) by (apply Z.pow_pos_nonneg; lia).
  assert (2 ^ (bits + 1) = 2 * 2 ^ bits) as Hp2.
  { replace (bits + 1) with (Z.succ bits) by lia. apply Z.pow_succ_r. lia. }
  unfold randint. destruct (Z.ltb_spec (2 ^ (bits + 1)) (2 ^ bits)); [lia |].
  destruct t as [| w t1]; [now right |].
  apply find_prime_loop_no_error; try lia.
  pose proof (Z.mod_pos_bound w (2 ^ (bits + 1) - 2 ^ bits + 1)). lia.
Qed.



End NoError.

Section Keys.

Lemma pow2_succ b : 0 <= b -> 2 ^ (b + 1) = 2 * 2 ^ b.
Proof.
  intros Hb. replace (b + 1) with (Z.succ b) by lia. apply Z.pow_succ_r. lia.
Qed.

Lemma find_prime_range bits t p t' :
  1 <= bits -> rsa.find_prime bits t = Ret (p, t') ->
  2 ^ bits <= p < 2 ^ (bits + 1) /\ (p = 2 \/ p mod 2 = 1).
Proof.
  intros Hb H. apply find_prime_ret in H as (_ & (Hlo & Hhi) & t0 & Hm).
  apply miller_rabin_true in Hm as (_ & Hodd).
  pose proof (pow2_succ bits ltac:(lia)) as Hs.
  assert (2 <= 2 ^ bits).
  { change 2 with (2 ^ 1) at 1. apply Z.pow_le_mono_r; lia. }
  assert (p <> 2 ^ (bits + 1)) as Hne.
  { intros ->. destruct Hodd as [E | E]; [lia |].
    apply E. rewrite Hs, Z.mul_comm. apply Z.mod_mul. lia. }
  split; [lia |].
  destruct Hodd as [E | E]; [now left | right].
  pose proof (Z.mod_pos_bound p 2). lia.
Qed.

(** For [bits >= 1] what [find_prime] returns has exactly [bits + 1]
    binary digits, and is 2 or odd. *)
Theorem find_prime_bit_length (bits : Z) (t t' : tape) (p : Z) :
  1 <= bits -> rsa.find_prime bits t = Ret (p, t') ->
  2 ^ bits <= p < 2 ^ (bits + 1) /\
  bit_length p = bits + 1 /\
  (p = 2 \/ p mod 2 = 1).
Proof.
  intros Hb H. destruct (find_prime_range _ _ _ _ Hb H) as (Hr & Ho).
  assert (0 < 2 ^ bits) by (apply Z.pow_pos_nonneg; lia).
  repeat split; try lia; try assumption.
  unfold bit_length. destruct (Z.eqb_spec p 0); [lia |].
  rewrite Z.abs_eq by lia.
  rewrite (Z.log2_unique p bits); lia.
Qed.

Lemma find_prime_bit_length_witness :
  rsa.find_prime 7 (3 :: zeros 65) = Ret (131, []) /\
  2 ^ 7 <= 131 < 2 ^ (7 + 1) /\
  bit_length 131 = 7 + 1 /\
  (131 = 2 \/ 131 mod 2 = 1).
Proof.
  assert (rsa.find_prime 7 (3 :: zeros 65) = Ret (131, [])) as E
    by (vm_compute; reflexivity).
  split; [exact E |].
  apply (find_prime_bit_length 7 (3 :: zeros 65) [] 131); [lia | exact E].
Defined.



Lemma trial_from_sound fuel i p m :
  trial_from fuel i p = true -> 0 < i -> i <= m -> m * m <= p -> ~ (m | p).
Proof.
  revert i. induction fuel as [| fuel IH]; intros i H Hi Him Hmm D;
    cbn [trial_from] in H.
  - apply Z.ltb_lt in H. nia.
  - apply orb_true_iff in H as [H | H]; [apply Z.ltb_lt in H; nia |].
    apply andb_true_iff in H as (H1 & H2).
    apply negb_true_iff, Z.eqb_neq in H1.
    destruct (Z.eq_dec m i) as [-> | Hne].
    + apply H1. apply Z.mod_divide; [lia | exact D].
    + apply (IH (i + 1)); (assumption || lia).
Qed.

Lemma trial_from_prime fuel p :
  1 < p -> trial_from fuel 2 p = true -> Z.prime p.
Proof.
  intros Hp H. split; [assumption |]. intros n Hn [c Hc].
  assert (1 < c) by nia.
  destruct (Z.le_gt_cases (n * n) p) as [Hs | Hs].
  - apply (trial_from_sound fuel 2 p n H); try lia. now exists c.
  - apply (trial_from_sound fuel 2 p c H); try lia; [nia |].
    exists n. lia.
Qed.

Lemma prime_65537 : Z.prime 65537.
Proof. apply (trial_from_prime 256); [lia | vm_compute; reflexivity]. Qed.

Lemma lcm_divide_mul a b : (Z.lcm a b | a * b).
Proof.
  unfold Z.lcm. apply Z.divide_abs_l. apply Z.mul_divide_mono_l.
  destruct (Z.eq_dec (Z.gcd a b) 0) as [E | E].
  - apply Z.gcd_eq_0_r in E. subst b. apply Z.divide_0_r.
  - destruct (Z.gcd_divide_r a b) as [c Hc].
    revert E Hc. generalize (Z.gcd a b). intros g E Hc.
    exists g. subst b. rewrite Z.div_mul by assumption. ring.
Qed.

(** How [RSA.__init__] can fail. *)
Lemma init_raise_inv psize t e :
  0 <= psize -> rsa.init psize t = Raise e ->
  e = AssertionError "Must be co-prime!" /\
  exists p q t1 t2,
    rsa.find_prime psize t = Ret (p, t1) /\
    rsa.find_prime psize t1 = Ret (q, t2) /\
    ((65537 | p - 1) \/ (65537 | q - 1)).
Proof.
  intros Hb. unfold rsa.init, bind.
  destruct (find_prime_cases psize t Hb) as [(p & t1 & Ep) | Ep];
    rewrite Ep; [| discriminate].
  destruct (find_prime_cases psize t1 Hb) as [(q & t2 & Eq) | Eq];
    rewrite Eq; [| discriminate].
  pose proof (find_prime_ge_2 _ _ _ _ Ep). pose proof (find_prime_ge_2 _ _ _ _ Eq).
  unfold lift. rewrite carmichael_ret by assumption.
  destruct (Z.eqb_spec (Z.gcd 65537 (Z.lcm (p - 1) (q - 1))) 1) as [Hg | Hg];
    cbn [negb].
  - assert (0 < Z.lcm (p - 1) (q - 1)) as Hl.
    { pose proof (Z.lcm_nonneg (p - 1) (q - 1)).
      destruct (Z.eq_dec (Z.lcm (p - 1) (q - 1)) 0) as [E0 | ]; [| lia].
      rewrite E0 in Hg. discriminate. }
    rewrite pow3_inverse by assumption. discriminate.
  - intros [= <-]. split; [reflexivity |]. exists p, q, t1, t2.
    split; [reflexivity |]. split; [exact Eq |].
    apply (Z.divide_prime_mul _ _ _ prime_65537).
    eapply Z.divide_trans; [| apply lcm_divide_mul].
    destruct (Z.eq_dec (Z.lcm (p - 1) (q - 1) mod 65537) 0) as [D | D];
      [apply Z.mod_divide in D; [exact D | lia] |].
    exfalso. apply Hg. apply Z.coprime_prime_l; [apply prime_65537 |].
    intros D'. apply D. apply Z.mod_divide; [lia | exact D'].
Qed.



(** Up to [psize = 15] both numbers found are at most [2^16], below the
    public exponent, so the assertion holds and key generation raises
    nothing: it returns, or is still drawing when the draws run out. *)
Theorem init_small_keys (psize : Z) (t : tape) :
  0 <= psize <= 15 ->
  (exists r t', rsa.init psize t = Ret (r, t')) \/ rsa.init psize t = Starved.
Proof.
  intros Hb. destruct (rsa.init psize t) as [[r t'] | e |] eqn:E.
  - left. now exists r, t'.
  - exfalso.
    apply init_raise_inv in E as (_ & p & q & t1 & t2 & Hp & Hq & D); [| lia].
    pose proof (find_prime_ge_2 _ _ _ _ Hp). pose proof (find_prime_ge_2 _ _ _ _ Hq).
    apply find_prime_ret in Hp as (_ & (_ & Hp) & _).
    apply find_prime_ret in Hq as (_ & (_ & Hq) & _).
    assert (2 ^ (psize + 1) <= 2 ^ 16) as Hle
      by (apply Z.pow_le_mono_r; lia).
    change (2 ^ 16) with 65536 in Hle.
    destruct D as [D | D]; apply Z.divide_pos_le in D; lia.
  - now right.
Qed.

Lemma init_small_keys_witness :
  (exists r t', rsa.init 2 tape_5_7 = Ret (r, t')) \/
  rsa.init 2 tape_5_7 = Starved.
Proof. apply (init_small_keys 2 tape_5_7). lia. Defined.

(** The size of a generated key: for [psize >= 1] the modulus lies in
    [2^(2 psize) .. 2^(2 psize + 2)), so [keysize] is [2 psize + 1] or
    [2 psize + 2]; and the private exponent lies in [0 .. lam_n). *)
Theorem key_size (psize : Z) (t t' : tape) (r : rsa.RSA) :
  1 <= psize -> rsa.init psize t = Ret (r, t') ->
  2 ^ (2 * psize) <= rsa.n r < 2 ^ (2 * psize + 2) /\
  2 * psize + 1 <= rsa.keysize r <= 2 * psize + 2 /\
  0 <= rsa.d r < rsa.lam_n r.
Proof.
  intros Hb Hi.
  destruct (init_ret _ _ _ _ Hi)
    as ((t1 & Hp & Hq) & _ & Hn & Hk & _ & _ & _ & Hl & Hd).
  destruct (find_prime_range _ _ _ _ Hb Hp) as (Hpr & _).
  destruct (find_prime_range _ _ _ _ Hb Hq) as (Hqr & _).
  assert (0 < 2 ^ psize) as Hpos by (apply Z.pow_pos_nonneg; lia).
  pose proof (pow2_succ psize ltac:(lia)) as Hs.
  assert (2 ^ (2 * psize) = 2 ^ psize * 2 ^ psize) as E1.
  { rewrite <- Z.pow_add_r by lia. f_equal. lia. }
  assert (2 ^ (2 * psize + 2) = 4 * (2 ^ psize * 2 ^ psize)) as E2.
  { replace (2 * psize + 2) with (2 + (psize + psize)) by lia.
    rewrite !Z.pow_add_r by lia. reflexivity. }
  assert (2 ^ (2 * psize) <= rsa.n r < 2 ^ (2 * psize + 2)) as Hnr
    by (rewrite Hn, E1, E2; nia).
  split; [exact Hnr |]. split.
  - rewrite Hk. unfold bit_length.
    assert (0 < rsa.n r) as Hn0 by lia.
    destruct (Z.eqb_spec (rsa.n r) 0); [lia |]. rewrite Z.abs_eq by lia.
    pose proof (proj1 (Z.log2_le_pow2 (rsa.n r) (2 * psize) Hn0) (proj1 Hnr)).
    pose proof (proj1 (Z.log2_lt_pow2 (rsa.n r) (2 * psize + 2) Hn0) (proj2 Hnr)).
    lia.
  - rewrite Hd. unfold Z.invmod. apply Z.mod_pos_bound. assumption.
Qed.

Lemma key_size_witness :
  exists r,
    rsa.init 7 tape_131_137 = Ret (r, []) /\
    2 ^ (2 * 7) <= rsa.n r < 2 ^ (2 * 7 + 2) /\
    2 * 7 + 1 <= rsa.keysize r <= 2 * 7 + 2 /\
    0 <= rsa.d r < rsa.lam_n r.
Proof.
  eexists.
  assert (rsa.init 7 tape_131_137
          = Ret (rsa.mkRSA 7 131 137 17947 15 8840 65537 3273, [])) as E
    by (vm_compute; reflexivity).
  split; [exact E |].
  apply (key_size 7 tape_131_137 [] _ ltac:(lia) E).
Defined.

(** [_carmichael] is the least common multiple of [p - 1] and [q - 1]
    whenever one of them is not 1, so both [p - 1] and [q - 1] divide it;
    at [p = q = 1] the division is by zero. *)
Theorem carmichael_is_lcm (p q : Z) :
  (p <> 1 \/ q <> 1 ->
   exists l, rsa._carmichael p q = Ret l /\ l = Z.lcm (p - 1) (q - 1) /\
             (p - 1 | l) /\ (q - 1 | l)) /\
  rsa._carmichael 1 1 = Raise ZeroDivisionError.
Proof.
  split; [| reflexivity]. intros H.
  exists (Z.lcm (p - 1) (q - 1)).
  split; [| split; [reflexivity | split;
    [apply Z.divide_lcm_l | apply Z.divide_lcm_r]]].
  unfold rsa._carmichael, floordiv.
  assert (Z.gcd (p - 1) (q - 1) <> 0) as Hg.
  { intros Hg. pose proof (Z.gcd_eq_0_l _ _ Hg). pose proof (Z.gcd_eq_0_r _ _ Hg).
    lia. }
  destruct (Z.eqb_spec (Z.gcd (p - 1) (q - 1)) 0); [contradiction |].
  now rewrite carmichael_lcm.
Qed.

Lemma carmichael_is_lcm_witness :
  exists l, rsa._carmichael 5 7 = Ret l /\ l = Z.lcm (5 - 1) (7 - 1) /\
            (5 - 1 | l) /\ (7 - 1 | l).
Proof. apply (proj1 (carmichael_is_lcm 5 7)). left. discriminate. Defined.

End Keys.

Section Cipher.

(** Raising to [e] and to [d] modulo [n], in either order, reduces any
    integer modulo [n]. *)
Lemma power_roundtrip_mod psize t r t' x :
  rsa.init psize t = Ret (r, t') ->
  Z.prime (rsa.p r) -> Z.prime (rsa.q r) -> rsa.p r <> rsa.q r ->
  (x ^ rsa.e r mod rsa.n r) ^ rsa.d r mod rsa.n r = x mod rsa.n r /\
  (x ^ rsa.d r mod rsa.n r) ^ rsa.e r mod rsa.n r = x mod rsa.n r.
Proof.
  intros Hi Pp Pq Hne.
  destruct (key_exponent _ _ _ _ Hi Hne) as (Hd0 & Hed & Dp & Dq).
  destruct (init_ret _ _ _ _ Hi) as (_ & _ & Hn & _ & _ & He & _).
  assert (0 <= rsa.e r) as He0 by lia.
  rewrite !Z.mod_pow_l, <- !Z.pow_mul_r by assumption.
  rewrite (Z.mul_comm (rsa.d r)). rewrite Hn.
  now rewrite (rsa_identity _ _ _ x Pp Pq Hne Hed Dp Dq).
Qed.

(** Encryption does not depend on the object that performs it, and a key
    with two different primes decrypts what anybody encrypted for it:
    the result is the message reduced modulo [n], for every integer
    message. *)
Theorem rsa_cross_roundtrip (sender : rsa.RSA) (psize : Z) (t t' : tape)
  (r : rsa.RSA) (m : Z) :
  rsa.init psize t = Ret (r, t') ->
  Z.prime (rsa.p r) -> Z.prime (rsa.q r) -> rsa.p r <> rsa.q r ->
  (c <~ rsa.encrypt sender m (rsa.publickey r) ;; rsa.decrypt r c)
  = Ret (m mod rsa.n r).
Proof.
  intros Hi Pp Pq Hne.
  destruct (init_modulus _ _ _ _ Hi) as (Hn & He).
  destruct (key_exponent _ _ _ _ Hi Hne) as (Hd & _).
  destruct (power_roundtrip_mod _ _ _ _ m Hi Pp Pq Hne) as (Hrt & _).
  unfold rsa.encrypt, rsa.publickey, rsa.decrypt.
  rewrite pow3_nonneg by lia. cbn [obind].
  rewrite pow3_nonneg by lia. now rewrite Hrt.
Qed.

Lemma rsa_cross_roundtrip_witness :
  (c <~ rsa.encrypt (rsa.mkRSA 0 0 0 0 0 0 0 0) 1234
          (rsa.publickey (rsa.mkRSA 2 5 7 35 6 12 65537 5)) ;;
   rsa.decrypt (rsa.mkRSA 2 5 7 35 6 12 65537 5) c)
  = Ret (1234 mod 35).
Proof.
  assert (rsa.init 2 tape_5_7 = Ret (rsa.mkRSA 2 5 7 35 6 12 65537 5, [])) as E
    by (vm_compute; reflexivity).
  apply (rsa_cross_roundtrip (rsa.mkRSA 0 0 0 0 0 0 0 0) 2 _ _ _ 1234 E).
  - exact prime_5.
  - exact prime_7.
  - discriminate.
Defined.

(** The other order, which signing relies on: encrypting under a key's
    own public key what the key decrypted gives the input back, reduced
    modulo [n]. *)
Theorem decrypt_then_encrypt (psize : Z) (t t' : tape) (r : rsa.RSA) (c : Z) :
  rsa.init psize t = Ret (r, t') ->
  Z.prime (rsa.p r) -> Z.prime (rsa.q r) -> rsa.p r <> rsa.q r ->
  (s <~ rsa.decrypt r c ;; rsa.encrypt r s (rsa.publickey r))
  = Ret (c mod rsa.n r).
Proof.
  intros Hi Pp Pq Hne.
  destruct (init_modulus _ _ _ _ Hi) as (Hn & He).
  destruct (key_exponent _ _ _ _ Hi Hne) as (Hd & _).
  destruct (power_roundtrip_mod _ _ _ _ c Hi Pp Pq Hne) as (_ & Hrt).
  unfold rsa.encrypt, rsa.publickey, rsa.decrypt.
  rewrite pow3_nonneg by lia. cbn [obind].
  rewrite pow3_nonneg by lia. now rewrite Hrt.
Qed.

Lemma decrypt_then_encrypt_witness :
  (s <~ rsa.decrypt (rsa.mkRSA 2 5 7 35 6 12 65537 5) 17 ;;
   rsa.encrypt (rsa.mkRSA 2 5 7 35 6 12 65537 5) s
     (rsa.publickey (rsa.mkRSA 2 5 7 35 6 12 65537 5)))
  = Ret (17 mod 35).
Proof.
  assert (rsa.init 2 tape_5_7 = Ret (rsa.mkRSA 2 5 7 35 6 12 65537 5, [])) as E
    by (vm_compute; reflexivity).
  apply (decrypt_then_encrypt 2 _ _ _ 17 E).
  - exact prime_5.
  - exact prime_7.
  - discriminate.
Defined.

(** With a generated key neither [encrypt] nor [decrypt] can raise, for
    any integer input, and what they return lies in [0 .. n). *)
Theorem cipher_residues (sender : rsa.RSA) (psize : Z) (t t' : tape)
  (r : rsa.RSA) (x : Z) :
  rsa.init psize t = Ret (r, t') ->
  (exists c, rsa.encrypt sender x (rsa.publickey r) = Ret c /\
             0 <= c < rsa.n r) /\
  (exists m, rsa.decrypt r x = Ret m /\ 0 <= m < rsa.n r).
Proof.
  intros Hi.
  destruct (init_modulus _ _ _ _ Hi) as (Hn & He).
  destruct (init_ret _ _ _ _ Hi) as (_ & _ & _ & _ & _ & _ & _ & Hl & Hd).
  assert (0 <= rsa.d r) as Hd0.
  { rewrite Hd. unfold Z.invmod. apply Z.mod_pos_bound. assumption. }
  unfold rsa.encrypt, rsa.publickey, rsa.decrypt.
  rewrite !pow3_nonneg by lia.
  split; eexists; (split; [reflexivity | apply Z.mod_pos_bound; lia]).
Qed.

Lemma cipher_residues_witness :
  (exists c, rsa.encrypt (rsa.mkRSA 0 0 0 0 0 0 0 0) (-3)
               (rsa.publickey (rsa.mkRSA 2 5 7 35 6 12 65537 5)) = Ret c /\
             0 <= c < rsa.n (rsa.mkRSA 2 5 7 35 6 12 65537 5)) /\
  (exists m, rsa.decrypt (rsa.mkRSA 2 5 7 35 6 12 65537 5) (-3) = Ret m /\
             0 <= m < rsa.n (rsa.mkRSA 2 5 7 35 6 12 65537 5)).
Proof.
  assert (rsa.init 2 tape_5_7 = Ret (rsa.mkRSA 2 5 7 35 6 12 65537 5, [])) as E
    by (vm_compute; reflexivity).
  exact (cipher_residues (rsa.mkRSA 0 0 0 0 0 0 0 0) 2 _ _ _ (-3) E).
Defined.

(** Unpadded encryption is multiplicative: the encryption of a product
    is the product of the encryptions, modulo [n]. *)
Theorem encrypt_multiplicative (sender : rsa.RSA) (psize : Z) (t t' : tape)
  (r : rsa.RSA) (m1 m2 : Z) :
  rsa.init psize t = Ret (r, t') ->
  rsa.encrypt sender (m1 * m2) (rsa.publickey r) =
  (c1 <~ rsa.encrypt sender m1 (rsa.publickey r) ;;
   c2 <~ rsa.encrypt sender m2 (rsa.publickey r) ;;
   mod_ (c1 * c2) (rsa.n r)).
Proof.
  intros Hi. destruct (init_modulus _ _ _ _ Hi) as (Hn & He).
  unfold rsa.encrypt, rsa.publickey.
  rewrite !pow3_nonneg by lia. cbn [obind]. unfold mod_.
  destruct (Z.eqb_spec (rsa.n r) 0); [lia |].
  now rewrite Z.pow_mul_l, <- Zmult_mod.
Qed.

Lemma encrypt_multiplicative_witness :
  rsa.encrypt (rsa.mkRSA 2 5 7 35 6 12 65537 5) (3 * 4)
    (rsa.publickey (rsa.mkRSA 2 5 7 35 6 12 65537 5)) =
  (c1 <~ rsa.encrypt (rsa.mkRSA 2 5 7 35 6 12 65537 5) 3
           (rsa.publickey (rsa.mkRSA 2 5 7 35 6 12 65537 5)) ;;
   c2 <~ rsa.encrypt (rsa.mkRSA 2 5 7 35 6 12 65537 5) 4
           (rsa.publickey (rsa.mkRSA 2 5 7 35 6 12 65537 5)) ;;
   mod_ (c1 * c2) (rsa.n (rsa.mkRSA 2 5 7 35 6 12 65537 5))).
Proof.
  assert (rsa.init 2 tape_5_7 = Ret (rsa.mkRSA 2 5 7 35 6 12 65537 5, [])) as E
    by (vm_compute; reflexivity).
  exact (encrypt_multiplicative _ 2 _ _ _ 3 4 E).
Defined.

(** The scenario of the [__main__] block: Alice signs and encrypts for
    Bob, Bob decrypts and verifies with Alice's key.  When both keys are
    made of two different primes, the plaintext is below Bob's modulus and
    its hash is below Alice's, Bob gets [(True, plaintext)]. *)
Theorem main_verifies (psize plaintext : Z) (t t1 t2 : tape)
  (alice bob : rsa.RSA) :
  rsa.init psize t = Ret (alice, t1) ->
  rsa.init psize t1 = Ret (bob, t2) ->
  Z.prime (rsa.p alice) -> Z.prime (rsa.q alice) -> rsa.p alice <> rsa.q alice ->
  Z.prime (rsa.p bob) -> Z.prime (rsa.q bob) -> rsa.p bob <> rsa.q bob ->
  0 <= plaintext < rsa.n bob ->
  hash plaintext < rsa.n alice ->
  rsa.main psize plaintext t = Ret ((true, plaintext), t2).
Proof.
  intros Ha Hb Pa Qa Na Pb Qb Nb Hm Hh.
  destruct (init_modulus _ _ _ _ Ha) as (Hna & Hea).
  destruct (init_modulus _ _ _ _ Hb) as (Hnb & Heb).
  destruct (key_exponent _ _ _ _ Ha Na) as (Hda & _).
  destruct (key_exponent _ _ _ _ Hb Nb) as (Hdb & _).
  destruct (power_roundtrip _ _ _ _ plaintext Hb Pb Qb Nb Hm) as (Hrt & _).
  assert (0 <= hash plaintext < hash_modulus) as Hhr.
  { rewrite hash_nonneg by lia. apply Z.mod_pos_bound. reflexivity. }
  assert (0 <= hash plaintext < rsa.n alice) as Hha by lia.
  destruct (power_roundtrip _ _ _ _ (hash plaintext) Ha Pa Qa Na Hha)
    as (_ & Hsg).
  unfold rsa.main, bind. rewrite Ha, Hb. unfold lift.
  unfold rsa.encrypt_and_sign, rsa.decrypt_and_verify, rsa.encrypt,
    rsa.publickey, rsa.decrypt.
  rewrite !pow3_nonneg by lia. cbn [obind].
  rewrite !pow3_nonneg by lia. cbn [obind].
  rewrite Hrt, Hsg, (hash_small (hash plaintext)) by assumption.
  rewrite Z.eqb_refl. reflexivity.
Qed.

Lemma main_verifies_witness :
  rsa.main 7 1234 (tape_131_137 ++ tape_131_137) = Ret ((true, 1234), []).
Proof.
  pose (r := rsa.mkRSA 7 131 137 17947 15 8840 65537 3273).
  assert (rsa.init 7 (tape_131_137 ++ tape_131_137) = Ret (r, tape_131_137))
    as Ea by (vm_compute; reflexivity).
  assert (rsa.init 7 tape_131_137 = Ret (r, [])) as Eb
    by (vm_compute; reflexivity).
  apply (main_verifies 7 1234 _ _ _ r r Ea Eb).
  - exact prime_131.
  - exact prime_137.
  - discriminate.
  - exact prime_131.
  - exact prime_137.
  - discriminate.
  - cbn. lia.
  - vm_compute. reflexivity.
Defined.

End Cipher.

(** * Further properties of oblivious.py *)

Section Exchange.

Lemma choice_bit w :
  nth (Z.to_nat (w mod Z.of_nat (length [0; 1]))) [0; 1] 0 = 0 \/
  nth (Z.to_nat (w mod Z.of_nat (length [0; 1]))) [0; 1] 0 = 1.
Proof.
  cbn [length].
  destruct (Z.to_nat (w mod Z.of_nat 2)) as [| [| [| ?]]]; auto.
Qed.






End Exchange.

Section Transfer.

Lemma unblind_mod n e d x k m :
  0 < n -> (k ^ e mod n) ^ d mod n = k ->
  ((x + k ^ e) mod n - x) ^ d mod n = k /\
  ((m + ((x + k ^ e) mod n - x) ^ d mod n) mod n - k) mod n = m mod n.
Proof.
  intros Hn Hk.
  assert (((x + k ^ e) mod n - x) ^ d mod n = k) as E.
  { rewrite <- Z.mod_pow_l, Zminus_mod_idemp_l.
    replace (x + k ^ e - x) with (k ^ e) by ring. exact Hk. }
  split; [exact E |]. rewrite E, Zminus_mod_idemp_l.
  f_equal. ring.
Qed.

(** With two different primes the trapdoor step gives Alice, in the slot
    Bob chose, exactly Bob's blinding factor, and Bob ends with the chosen
    message reduced modulo [n], whatever its size. *)
Theorem exchange_message_mod (bits : Z) (disclose : bool) (t t' : tape)
  (alice : Alice.state) (bob : Bob.state) (b : Z) :
  exchange bits disclose t = Ret ((alice, bob), t') ->
  Z.prime (rsa.p (Alice.r alice)) ->
  Z.prime (rsa.q (Alice.r alice)) ->
  rsa.p (Alice.r alice) <> rsa.q (Alice.r alice) ->
  Bob.b bob = Some b ->
  (if b =? 0 then Alice.k0 alice else Alice.k1 alice) = Bob.k bob /\
  Bob.message bob = Some (chosen_message alice b mod rsa.n (Alice.r alice)).
Proof.
  intros H Pp Pq Hne Hb.
  apply exchange_ret in H
    as (r & t1 & x0 & x1 & b' & k & Hr & Hb' & Hk & Hbits & Ha & Hbob).
  subst alice bob.
  cbn [Alice.r Alice.k0 Alice.k1 Bob.b Bob.k Bob.message] in *.
  injection Hb as ->.
  destruct (init_ret _ _ _ _ Hr)
    as ((t0 & Hp & Hq) & _ & Hn & _ & _ & _ & _ & _ & _).
  pose proof (find_prime_ge_2 _ _ _ _ Hq) as Hq2.
  apply find_prime_ret in Hp as (_ & (Hlo & _) & _).
  assert (0 < 2 ^ bits) as Hpow by (apply Z.pow_pos_nonneg; lia).
  assert (0 <= k < rsa.n r) as Hkn by (rewrite Hn; nia).
  destruct (power_roundtrip _ _ _ _ k Hr Pp Pq Hne Hkn) as (Hrt & _).
  unfold chosen_message. cbn [Alice.m0 Alice.m1].
  destruct Hb' as [-> | ->]; cbn [Z.eqb].
  - destruct (unblind_mod (rsa.n r) (rsa.e r) (rsa.d r) x0 k 1234
                ltac:(lia) Hrt) as (E1 & E2).
    now rewrite E2, E1.
  - destruct (unblind_mod (rsa.n r) (rsa.e r) (rsa.d r) x1 k 5678
                ltac:(lia) Hrt) as (E1 & E2).
    now rewrite E2, E1.
Qed.

Lemma exchange_message_mod_witness :
  exists alice bob,
    exchange 2 false (tape_5_7 ++ [0; 0; 1; 2]) = Ret ((alice, bob), []) /\
    (if 1 =? 0 then Alice.k0 alice else Alice.k1 alice) = Bob.k bob /\
    Bob.message bob = Some (chosen_message alice 1 mod rsa.n (Alice.r alice)).
Proof.
  pose (alice := Alice.mk (rsa.mkRSA 2 5 7 35 6 12 65537 5) false 1234 5678
                   1000 1000 (Some 17) (Some 2) (Some 2)).
  pose (bob := Bob.mk 2 false (Some 35) (Some 65537) (Some (1000, 1000))
                 (Some 1) (Some 2) (Some 8)).
  exists alice, bob.
  assert (exchange 2 false (tape_5_7 ++ [0; 0; 1; 2])
          = Ret ((alice, bob), [])) as E by (vm_compute; reflexivity).
  split; [exact E |].
  apply (exchange_message_mod 2 false _ _ alice bob 1 E).
  - exact prime_5.
  - exact prime_7.
  - discriminate.
  - reflexivity.
Defined.

(** Everything computed during a completed exchange is a residue: the
    blinded choice, Alice's two blinding values, the two responses she
    would send and Bob's result all lie in [0 .. n), while the key, the
    messages and the nonces of Alice are those of her construction. *)
Theorem exchange_residues (bits : Z) (disclose : bool) (t t' : tape)
  (alice : Alice.state) (bob : Bob.state) :
  exchange bits disclose t = Ret ((alice, bob), t') ->
  let n := rsa.n (Alice.r alice) in
  (exists v k0 k1 y0 y1 msg,
     Alice.v alice = Some v /\ Alice.k0 alice = Some k0 /\
     Alice.k1 alice = Some k1 /\
     Alice.send_encrypted_messages alice = Ret (y0, y1) /\
     Bob.message bob = Some msg /\
     0 <= v < n /\ 0 <= k0 < n /\ 0 <= k1 < n /\
     0 <= y0 < n /\ 0 <= y1 < n /\ 0 <= msg < n) /\
  Alice.m0 alice = 1234 /\ Alice.m1 alice = 5678 /\
  Bob.n_pub bob = Some n /\ Bob.e_pub bob = Some (rsa.e (Alice.r alice)) /\
  Bob.xs bob = Some (Alice.x0 alice, Alice.x1 alice).
Proof.
  intros H n.
  apply exchange_ret in H
    as (r & t1 & x0 & x1 & b & k & Hr & Hb & Hk & Hbits & Ha & Hbob).
  destruct (init_modulus _ _ _ _ Hr) as (Hn & _).
  subst alice bob n.
  cbn [Alice.r Alice.v Alice.k0 Alice.k1 Alice.m0 Alice.m1 Alice.x0 Alice.x1
       Bob.n_pub Bob.e_pub Bob.xs Bob.message].
  split; [| repeat split].
  do 6 eexists.
  split; [reflexivity |]. split; [reflexivity |]. split; [reflexivity |].
  split; [apply send_encrypted_messages_run; lia |].
  split; [reflexivity |].
  repeat split; apply Z.mod_pos_bound; lia.
Qed.

Lemma exchange_residues_witness :
  exists alice bob,
    exchange 2 false (tape_5_7 ++ [0; 0; 1; 2]) = Ret ((alice, bob), []) /\
    Bob.n_pub bob = Some (rsa.n (Alice.r alice)) /\
    Bob.xs bob = Some (Alice.x0 alice, Alice.x1 alice).
Proof.
  pose (alice := Alice.mk (rsa.mkRSA 2 5 7 35 6 12 65537 5) false 1234 5678
                   1000 1000 (Some 17) (Some 2) (Some 2)).
  pose (bob := Bob.mk 2 false (Some 35) (Some 65537) (Some (1000, 1000))
                 (Some 1) (Some 2) (Some 8)).
  exists alice, bob.
  assert (exchange 2 false (tape_5_7 ++ [0; 0; 1; 2])
          = Ret ((alice, bob), [])) as E by (vm_compute; reflexivity).
  split; [exact E |].
  pose proof (exchange_residues 2 false _ _ alice bob E) as H.
  cbv zeta in H. destruct H as (_ & _ & _ & Hn & _ & Hx).
  split; [exact Hn | exact Hx].
Defined.

(** Bob's methods called before their inputs exist end in the
    interpreter's [AttributeError] for the first attribute they read:
    [xs] before the nonces were received, [b] before the parameters were
    chosen, [e_pub] when the public key was never received. *)
Theorem Bob_out_of_order (bits : Z) (disclose : bool) (pkey : rsa.PubKeys)
  (nonces messages : Z * Z) (t t' : tape) (bob : Bob.state) :
  Bob.choose_parameters
    (Bob.receive_random_messages (Bob.init bits disclose) nonces) t
  = Ret (bob, t') ->
  Bob.send_encrypted_choice (Bob.init bits disclose)
  = Raise (AttributeError "xs") /\
  Bob.send_encrypted_choice
    (Bob.receive_random_messages
       (Bob.receive_publickey (Bob.init bits disclose) pkey) nonces)
  = Raise (AttributeError "b") /\
  Bob.decrypt_choice
    (Bob.receive_random_messages
       (Bob.receive_publickey (Bob.init bits disclose) pkey) nonces) messages
  = Raise (AttributeError "b") /\
  Bob.send_encrypted_choice bob = Raise (AttributeError "e_pub") /\
  Bob.decrypt_choice bob messages = Raise (AttributeError "n_pub").
Proof.
  intros H. destruct pkey as [n e].
  split; [reflexivity |]. split; [reflexivity |]. split; [reflexivity |].
  apply choose_parameters_ret in H as (b & k & Hb & _ & _ & ->).
  cbv [Bob.init Bob.receive_random_messages Bob.bits Bob.disclose Bob.n_pub
       Bob.e_pub Bob.xs Bob.message].
  unfold Bob.send_encrypted_choice, Bob.decrypt_choice, Bob.getxs.
  cbn [Bob.xs Bob.b Bob.k Bob.e_pub Bob.n_pub obind getattr].
  destruct nonces as [x0 x1], messages as [y0 y1].
  destruct Hb as [-> | ->]; split; reflexivity.
Qed.

Lemma Bob_out_of_order_witness :
  Bob.send_encrypted_choice (Bob.init 7 false)
  = Raise (AttributeError "xs") /\
  Bob.send_encrypted_choice
    (Bob.receive_random_messages
       (Bob.receive_publickey (Bob.init 7 false) (35, 65537)) (1000, 2000))
  = Raise (AttributeError "b") /\
  Bob.decrypt_choice
    (Bob.receive_random_messages
       (Bob.receive_publickey (Bob.init 7 false) (35, 65537)) (1000, 2000))
    (3, 4)
  = Raise (AttributeError "b") /\
  Bob.send_encrypted_choice
    (Bob.mk 7 false None None (Some (1000, 2000)) (Some 1) (Some 5) None)
  = Raise (AttributeError "e_pub") /\
  Bob.decrypt_choice
    (Bob.mk 7 false None None (Some (1000, 2000)) (Some 1) (Some 5) None)
    (3, 4)
  = Raise (AttributeError "n_pub").
Proof.
  apply (Bob_out_of_order 7 false (35, 65537) (1000, 2000) (3, 4) [1; 5] []).
  vm_compute. reflexivity.
Defined.

End Transfer.

Section Choice.

(** [choose_parameters] draws exactly two numbers: the choice [b], which
    is 0 or 1, and the blinding factor [k] with [0 <= k <= 2^bits]; what
    Bob had received before is left as it was. *)
Theorem choose_parameters_draws (bob : Bob.state) (wb wk : Z) (t : tape) :
  0 <= Bob.bits bob ->
  exists b k,
    Bob.choose_parameters bob (wb :: wk :: t) =
    Ret (Bob.mk (Bob.bits bob) (Bob.disclose bob) (Bob.n_pub bob)
           (Bob.e_pub bob) (Bob.xs bob) (Some b) (Some k) (Bob.message bob),
         t) /\
    (b = 0 \/ b = 1) /\ 0 <= k <= 2 ^ Bob.bits bob.
Proof.
  intros Hb.
  assert (0 < 2 ^ Bob.bits bob) as Hpow by (apply Z.pow_pos_nonneg; lia).
  unfold Bob.choose_parameters, bind, choice, lift, int_pow.
  destruct (Z.ltb_spec (Bob.bits bob) 0); [lia |].
  rewrite randint_cons by lia. unfold ret.
  eexists. eexists. split; [reflexivity |]. split; [apply choice_bit |].
  pose proof (Z.mod_pos_bound wk (2 ^ Bob.bits bob - 0 + 1)). lia.
Qed.

Lemma choose_parameters_draws_witness :
  exists b k,
    Bob.choose_parameters (Bob.init 7 false) (1 :: 200 :: [9]) =
    Ret (Bob.mk 7 false None None None (Some b) (Some k) None, [9]) /\
    (b = 0 \/ b = 1) /\ 0 <= k <= 2 ^ 7.
Proof. apply (choose_parameters_draws (Bob.init 7 false) 1 200 [9]). cbn. lia. Defined.

End Choice.
